(** * Per-frame simulation of the car scene (cubemaps_environment_mapping.cpp)

    The simulation core of the render loop: the AABB test [checkCollision],
    the speed / heading / position update of the car, and the chase-camera
    smoothing.  The C++ [float] scalars and [glm::vec3] vectors are read as
    real numbers and triples of real numbers; [sin] and [cos] are the real
    functions, [fabs] is [Rabs].  The rendering calls around the physics do
    not touch the simulated state and are left out.  The keyboard callback,
    the loop around the frame with its clock, and the two texture loaders
    (as the sequence of calls they make) are modelled as well.  The
    statements are kept to what the code's comparisons, assignments and
    single evaluations of its expressions give; sums over many frames are
    stated frame by frame, as the code accumulates them. *)

From Stdlib Require Import Reals Lra List Bool.
Import ListNotations.
From Stdlib Require Import ZArith Lia String.

Open Scope R_scope.

(** ** Comparisons of the source, as boolean tests *)

Definition Rltb (x y : R) : bool := if Rlt_dec x y then true else false.
Definition Rgtb (x y : R) : bool := if Rgt_dec x y then true else false.
Definition Rgeb (x y : R) : bool := if Rge_dec x y then true else false.

(** ** glm::vec3 and the glm functions the frame uses *)

Record vec3 : Type := mkVec3 { vx : R; vy : R; vz : R }.

Definition vadd (a b : vec3) : vec3 :=
  mkVec3 (vx a + vx b) (vy a + vy b) (vz a + vz b).

Definition vsub (a b : vec3) : vec3 :=
  mkVec3 (vx a - vx b) (vy a - vy b) (vz a - vz b).

(** [v * s] with a scalar on the right. *)
Definition vscale (v : vec3) (s : R) : vec3 :=
  mkVec3 (vx v * s) (vy v * s) (vz v * s).

(** [glm::radians]: degrees times the constant pi/180. *)
Definition radians (deg : R) : R := deg * (PI / 180).

(** [glm::clamp (x, lo, hi)] is [min (max (x, lo), hi)]. *)
Definition clamp (x lo hi : R) : R := Rmin (Rmax x lo) hi.

(** [glm::mix (x, y, a)] on scalars is [x * (1 - a) + y * a]; on a vec3
    with a scalar factor it is taken component by component. *)
Definition mix1 (x y a : R) : R := x * (1 - a) + y * a.

Definition mix (x y : vec3) (a : R) : vec3 :=
  mkVec3 (mix1 (vx x) (vx y) a) (mix1 (vy x) (vy y) a) (mix1 (vz x) (vz y) a).

(** ** Globals of the program *)

Definition cameraSmoothSpeed : R := 6.

Definition carSize : vec3 := mkVec3 1.5 1 3.
Definition wallPos : vec3 := mkVec3 0 2 20.
Definition wallSize : vec3 := mkVec3 4 4 0.5.

Definition MAX_SPEED : R := 12.
Definition ACCELERATION : R := 20.
Definition BRAKE : R := 30.
Definition FRICTION : R := 6.
Definition TURN_SPEED : R := 90.

(** The four entries of [keys[1024]] the frame reads. *)
Definition GLFW_KEY_A : nat := 65.
Definition GLFW_KEY_D : nat := 68.
Definition GLFW_KEY_S : nat := 83.
Definition GLFW_KEY_W : nat := 87.

(** ** checkCollision *)

Definition checkCollision (posA sizeA posB sizeB : vec3) : bool :=
  Rltb (Rabs (vx posA - vx posB) * 2) (vx sizeA + vx sizeB) &&
  Rltb (Rabs (vy posA - vy posB) * 2) (vy sizeA + vy sizeB) &&
  Rltb (Rabs (vz posA - vz posB) * 2) (vz sizeA + vz sizeB).

(** ** The state the render loop carries from frame to frame *)

Record State : Type := mkState {
  carPos : vec3;
  carYaw : R;
  carSpeed : R;
  cameraPos : vec3
}.

(** Input of one frame: the key array and the frame's [deltaTime]. *)
Record Input : Type := mkInput {
  keys : nat -> bool;
  deltaTime : R
}.

Definition forward (yaw : R) : vec3 :=
  mkVec3 (sin (radians yaw)) 0 (cos (radians yaw)).

(** State before the first frame; the camera is seeded behind the car. *)
Definition initState : State :=
  mkState (mkVec3 0 0 0) 0 0
          (vadd (vsub (mkVec3 0 0 0) (vscale (forward 0) 8)) (mkVec3 0 3 0)).

Definition accelInput (k : nat -> bool) : R :=
  let a := 0 in
  let a := if k GLFW_KEY_W then a + 1 else a in
  let a := if k GLFW_KEY_S then a - 1 else a in
  a.

Definition steerInput (k : nat -> bool) : R :=
  let s := 0 in
  let s := if k GLFW_KEY_A then s + 1 else s in
  let s := if k GLFW_KEY_D then s - 1 else s in
  s.

(** "update speed": the three input branches, before the clamps. *)
Definition integrateSpeed (speed accel dt : R) : R :=
  if Rgtb accel 0 then speed + ACCELERATION * accel * dt
  else if Rltb accel 0 then speed + - BRAKE * (- accel) * dt
  else if Rgtb speed 0 then speed - FRICTION * dt
  else if Rltb speed 0 then speed + FRICTION * dt
  else speed.

(** "clamp small speeds to zero", then "clamp to max". *)
Definition clampSpeed (speed : R) : R :=
  let s := if Rltb (Rabs speed) 0.01 then 0 else speed in
  let s := if Rgtb s MAX_SPEED then MAX_SPEED else s in
  let s := if Rltb s (- MAX_SPEED * 0.5) then - MAX_SPEED * 0.5 else s in
  s.

Definition updateSpeed (speed accel dt : R) : R :=
  clampSpeed (integrateSpeed speed accel dt).

(** The factor the source writes [carSpeed >= 0 ? 1.0f : -1.0f]. *)
Definition speedSign (speed : R) : R := if Rgeb speed 0 then 1 else -1.

Definition turnAmount (speed dt : R) : R :=
  TURN_SPEED * speedSign speed * dt.

(** The car after the speed and heading updates, before the move. *)
Definition steer (s : State) (i : Input) : State :=
  let speed := updateSpeed (carSpeed s) (accelInput (keys i)) (deltaTime i) in
  let yaw := carYaw s + steerInput (keys i) * turnAmount speed (deltaTime i) in
  mkState (carPos s) yaw speed (cameraPos s).

(** [nextPos] of a car whose speed and heading are already updated. *)
Definition nextPos (s : State) (dt : R) : vec3 :=
  vadd (carPos s) (vscale (vscale (forward (carYaw s)) (carSpeed s)) dt).

(** "check wall collision": commit the move, or stop the car. *)
Definition resolveCollision (s : State) (dt : R) : State :=
  if negb (checkCollision (nextPos s dt) carSize wallPos wallSize)
  then mkState (nextPos s dt) (carYaw s) (carSpeed s) (cameraPos s)
  else mkState (carPos s) (carYaw s) 0 (cameraPos s).

Definition desiredCameraPos (s : State) : vec3 :=
  vadd (vsub (carPos s) (vscale (forward (carYaw s)) 8)) (mkVec3 0 3 0).

Definition updateCamera (s : State) (dt : R) : State :=
  mkState (carPos s) (carYaw s) (carSpeed s)
          (mix (cameraPos s) (desiredCameraPos s)
               (clamp (cameraSmoothSpeed * dt) 0 1)).

(** One iteration of the render loop, from "input / physics" to the camera
    update. *)
Definition frame (s : State) (i : Input) : State :=
  updateCamera (resolveCollision (steer s i) (deltaTime i)) (deltaTime i).

(** The tentative position the frame tests against the wall. *)
Definition tentative (s : State) (i : Input) : vec3 :=
  nextPos (steer s i) (deltaTime i).

(** Whether the frame's move is rejected. *)
Definition hitsWall (s : State) (i : Input) : bool :=
  checkCollision (tentative s i) carSize wallPos wallSize.

(** Successive frames. *)
Fixpoint run (s : State) (ins : list Input) : State :=
  match ins with
  | [] => s
  | i :: rest => run (frame s i) rest
  end.

(** No frame of the run has its move rejected. *)
Fixpoint noHit (s : State) (ins : list Input) : Prop :=
  match ins with
  | [] => True
  | i :: rest => hitsWall s i = false /\ noHit (frame s i) rest
  end.

(** Elapsed time of a run. *)
Fixpoint elapsed (ins : list Input) : R :=
  match ins with
  | [] => 0
  | i :: rest => deltaTime i + elapsed rest
  end.

(** ** Notions the statements use *)

(** The overlap test on one axis, and its two ways of failing. *)
Definition overlapsOn (pa sa pb sb : R) : Prop := Rabs (pa - pb) * 2 < sa + sb.
Definition touchesOn (pa sa pb sb : R) : Prop := Rabs (pa - pb) * 2 = sa + sb.
Definition separatedOn (pa sa pb sb : R) : Prop := Rabs (pa - pb) * 2 > sa + sb.

(** "The extents are non-zero": no extent is 0. *)
Definition nonZeroExtents (size : vec3) : Prop :=
  vx size <> 0 /\ vy size <> 0 /\ vz size <> 0.

(** The friction branch of "update speed", on its own. *)
Definition coast (speed dt : R) : R :=
  if Rgtb speed 0 then speed - FRICTION * dt
  else if Rltb speed 0 then speed + FRICTION * dt
  else speed.

(** The interval the clamps aim at. *)
Definition inRange (speed : R) : Prop :=
  - MAX_SPEED * 0.5 <= speed <= MAX_SPEED.

(** The forward key is down and the reverse key is up. *)
Definition accelerating (i : Input) : Prop :=
  keys i GLFW_KEY_W = true /\ keys i GLFW_KEY_S = false.

(** The reverse key is down and the forward key is up. *)
Definition reversing (i : Input) : Prop :=
  keys i GLFW_KEY_W = false /\ keys i GLFW_KEY_S = true.

(** The speed after a run of frames that each add ACCELERATION * deltaTime
    and clamp at MAX_SPEED, frame by frame as the code does it. *)
Fixpoint speedUp (v : R) (ins : list Input) : R :=
  match ins with
  | [] => v
  | i :: rest =>
      speedUp (Rmin MAX_SPEED (v + ACCELERATION * deltaTime i)) rest
  end.

(** The key array with both accelerator keys released. *)
Definition releaseAccel (k : nat -> bool) : nat -> bool :=
  fun n => if Nat.eqb n GLFW_KEY_W || Nat.eqb n GLFW_KEY_S then false else k n.

(** ** Concrete states and inputs *)

Definition noKeys : nat -> bool := fun _ => false.
Definition onlyKey (k : nat) : nat -> bool := fun n => Nat.eqb n k.

Definition pressWS : nat -> bool :=
  fun n => Nat.eqb n GLFW_KEY_W || Nat.eqb n GLFW_KEY_S.

(** A tenth of a second with one key, or the forward and left keys, down. *)
Definition pressW : Input := mkInput (onlyKey GLFW_KEY_W) 0.1.
Definition pressS : Input := mkInput (onlyKey GLFW_KEY_S) 0.1.
Definition pressA : Input := mkInput (onlyKey GLFW_KEY_A) 0.1.
Definition pressWA : Input :=
  mkInput (fun n => Nat.eqb n GLFW_KEY_W || Nat.eqb n GLFW_KEY_A) 0.1.

(** A whole second with no key, or with the reverse key, down. *)
Definition idleSecond : Input := mkInput noKeys 1.
Definition reverseSecond : Input := mkInput (onlyKey GLFW_KEY_S) 1.

(** A frame of 1/64 second with no key down. *)
Definition idleFrame : Input := mkInput noKeys 0.015625.

(** Frames of 0.0004 second with the forward key down: 2500 per second. *)
Definition tinyW : Input := mkInput (onlyKey GLFW_KEY_W) 0.0004.
Definition tinyRun : list Input := repeat tinyW 2500.

(** A car at rest at z = 18.2, facing the wall. *)
Definition nearWall : State :=
  mkState (mkVec3 0 0 18.2) 0 0 (mkVec3 0 3 10.2).

(** A car at rest at z = 19, already within reach of the wall. *)
Definition atWall : State :=
  mkState (mkVec3 0 0 19) 0 0 (mkVec3 0 3 11).

(** A car at the origin rolling forward at 1/16 units per second. *)
Definition rolling : State :=
  mkState (mkVec3 0 0 0) 0 0.0625 (mkVec3 0 3 (-8)).

(** A car at the origin at full reverse speed. *)
Definition backing : State :=
  mkState (mkVec3 0 0 0) 0 (-6) (mkVec3 0 3 (-8)).

(** The car a tenth of a second of forward key after the start. *)
Definition afterFirstPress : State :=
  mkState (mkVec3 0 0 0.2) 0 2 (mkVec3 0 3 (-8)).

(** ** Notions of the further properties *)

(** The car's box, where the car stands, does not overlap the wall's. *)
Definition clearOfWall (s : State) : Prop :=
  checkCollision (carPos s) carSize wallPos wallSize = false.

(** The speed after a run of frames that each subtract BRAKE * deltaTime
    and clamp at -MAX_SPEED * 0.5, frame by frame as the code does it. *)
Fixpoint slowDown (v : R) (ins : list Input) : R :=
  match ins with
  | [] => v
  | i :: rest =>
      slowDown (Rmax (- MAX_SPEED * 0.5) (v - BRAKE * deltaTime i)) rest
  end.

(** Neither the accelerator keys nor the steering keys have a net effect. *)
Definition idle (i : Input) : Prop :=
  accelInput (keys i) = 0 /\ steerInput (keys i) = 0.

(** The key array with both steering keys released. *)
Definition releaseSteer (k : nat -> bool) : nat -> bool :=
  fun n => if Nat.eqb n GLFW_KEY_A || Nat.eqb n GLFW_KEY_D then false else k n.

(** The z coordinates between which the car's box overlaps the wall's. *)
Definition wallNear : R := vz wallPos - (vz carSize + vz wallSize) / 2.
Definition wallFar : R := vz wallPos + (vz carSize + vz wallSize) / 2.

(** ** Further concrete states and inputs *)

(** A tenth of a second with no key down. *)
Definition idleTenth : Input := mkInput noKeys 0.1.

(** A standing car at the start position whose camera is 4 off to the side
    of where it is drawn to. *)
Definition lagging : State :=
  mkState (mkVec3 0 0 0) 0 0 (mkVec3 4 3 (-8)).

Definition pressAD : nat -> bool :=
  fun n => Nat.eqb n GLFW_KEY_A || Nat.eqb n GLFW_KEY_D.

Definition pressSA : Input :=
  mkInput (fun n => Nat.eqb n GLFW_KEY_S || Nat.eqb n GLFW_KEY_A) 0.1.

(** Half a second with the forward key down: a stalled frame. *)
Definition stallW : Input := mkInput (onlyKey GLFW_KEY_W) 0.5.

(** A car at full speed two units before the wall. *)
Definition approaching : State :=
  mkState (mkVec3 0 0 18) 0 12 (mkVec3 0 3 10).

(** ** key_callback and the render loop around the frame *)

(** GLFW's values for the key actions and for the escape key. *)
Definition GLFW_RELEASE : Z := 0.
Definition GLFW_PRESS : Z := 1.
Definition GLFW_REPEAT : Z := 2.
Definition GLFW_KEY_ESCAPE : Z := 256.

(** What the callback can write: the [keys] array and the window's
    should-close flag. *)
Record Window : Type := mkWindow {
  keyArr : nat -> bool;
  shouldClose : bool
}.

(** [keys[idx] = v]. *)
Definition setKey (k : nat -> bool) (idx : nat) (v : bool) : nat -> bool :=
  fun n => if Nat.eqb n idx then v else k n.

Definition key_callback (w : Window) (key action : Z) : Window :=
  let close :=
    if Z.eqb key GLFW_KEY_ESCAPE && Z.eqb action GLFW_PRESS then true
    else shouldClose w in
  let arr :=
    if Z.leb 0 key && Z.ltb key 1024 then
      if Z.eqb action GLFW_PRESS then setKey (keyArr w) (Z.to_nat key) true
      else if Z.eqb action GLFW_RELEASE then
        setKey (keyArr w) (Z.to_nat key) false
      else keyArr w
    else keyArr w in
  mkWindow arr close.

(** What [glfwPollEvents] can deliver: a key event, handed to
    [key_callback], or a request to close the window, which sets the flag. *)
Inductive Event : Type :=
  | KeyEvent (key action : Z)
  | CloseRequest.

Definition dispatch (w : Window) (e : Event) : Window :=
  match e with
  | KeyEvent key action => key_callback w key action
  | CloseRequest => mkWindow (keyArr w) true
  end.

Definition pollEvents (w : Window) (evs : list Event) : Window :=
  fold_left dispatch evs w.

(** What one pass of the loop takes from outside: the value of
    [glfwGetTime] at its top and the events polled at its bottom. *)
Record Tick : Type := mkTick {
  now : R;
  polled : list Event
}.

Record Loop : Type := mkLoop {
  window : Window;
  lastFrame : R;
  sim : State
}.

(** The program before the first pass of the loop. *)
Definition initLoop : Loop := mkLoop (mkWindow noKeys false) 0 initState.

(** The input the frame of a pass gets. *)
Definition inputOf (l : Loop) (t : Tick) : Input :=
  mkInput (keyArr (window l)) (now t - lastFrame l).

(** One pass of the [while] body. *)
Definition iteration (l : Loop) (t : Tick) : Loop :=
  mkLoop (pollEvents (window l) (polled t)) (now t) (frame (sim l) (inputOf l t)).

(** The [while (!glfwWindowShouldClose (window))] loop over the passes the
    ticks provide for. *)
Fixpoint mainLoop (l : Loop) (ts : list Tick) : Loop :=
  match ts with
  | [] => l
  | t :: rest =>
      if shouldClose (window l) then l else mainLoop (iteration l t) rest
  end.

(** The inputs of the frames the loop runs. *)
Fixpoint inputsOf (l : Loop) (ts : list Tick) : list Input :=
  match ts with
  | [] => []
  | t :: rest =>
      if shouldClose (window l) then []
      else inputOf l t :: inputsOf (iteration l t) rest
  end.

(** An event that does not write the entry of [key]. *)
Definition leavesKey (key : Z) (e : Event) : Prop :=
  match e with
  | KeyEvent key' action =>
      key' <> key \/ (action <> GLFW_PRESS /\ action <> GLFW_RELEASE)
  | CloseRequest => True
  end.

(** The clock does not run backwards from [t0] through the ticks. *)
Fixpoint ascending (t0 : R) (ts : list Tick) : Prop :=
  match ts with
  | [] => True
  | t :: rest => t0 <= now t /\ ascending (now t) rest
  end.

(** ** loadTexture and loadCubemap *)

(** The OpenGL names the two loaders use. *)
Inductive GLFormat : Type := GL_RED | GL_RGB | GL_RGBA.

(** [GL_TEXTURE_CUBE_MAP_FACE i] stands for
    [GL_TEXTURE_CUBE_MAP_POSITIVE_X + i]. *)
Inductive GLTarget : Type :=
  | GL_TEXTURE_2D
  | GL_TEXTURE_CUBE_MAP
  | GL_TEXTURE_CUBE_MAP_FACE (i : nat).

Inductive GLParam : Type :=
  | GL_TEXTURE_WRAP_S | GL_TEXTURE_WRAP_T | GL_TEXTURE_WRAP_R
  | GL_TEXTURE_MIN_FILTER | GL_TEXTURE_MAG_FILTER.

Inductive GLValue : Type :=
  | GL_REPEAT | GL_CLAMP_TO_EDGE | GL_LINEAR | GL_LINEAR_MIPMAP_LINEAR.

(** What [stbi_load] reports of an image it could read. *)
Record Image : Type := mkImage {
  imgWidth : Z;
  imgHeight : Z;
  imgChannels : Z
}.

(** The calls a loader makes, in order of execution. *)
Inductive Call : Type :=
  | SetFlip (flip : bool)
  | GenTextures (id : nat)
  | BindTexture (target : GLTarget) (id : nat)
  | TexImage2D (target : GLTarget) (format : GLFormat) (width height : Z)
  | GenerateMipmap (target : GLTarget)
  | TexParameteri (target : GLTarget) (pname : GLParam) (value : GLValue)
  | ImageFree (loaded : bool)
  | PrintFailure (path : string).

(** Number of colour components a format tells OpenGL to read per pixel. *)
Definition components (f : GLFormat) : Z :=
  match f with GL_RED => 1 | GL_RGB => 3 | GL_RGBA => 4 end%Z.

Definition textureFormat (nrComponents : Z) : GLFormat :=
  if Z.eqb nrComponents 1 then GL_RED
  else if Z.eqb nrComponents 3 then GL_RGB
  else GL_RGBA.

Definition cubemapFormat (nrChannels : Z) : GLFormat :=
  if Z.eqb nrChannels 3 then GL_RGB else GL_RGBA.

(** [loadTexture]: [disk] answers for [stbi_load], [fresh] is the name
    [glGenTextures] hands out.  The result is the returned id and the calls
    made. *)
Definition loadTexture (disk : string -> option Image) (fresh : nat)
    (path : string) : nat * list Call :=
  let pre := [SetFlip true; GenTextures fresh] in
  match disk path with
  | Some img =>
      let format := textureFormat (imgChannels img) in
      (fresh,
       pre ++
       [BindTexture GL_TEXTURE_2D fresh;
        TexImage2D GL_TEXTURE_2D format (imgWidth img) (imgHeight img);
        GenerateMipmap GL_TEXTURE_2D;
        TexParameteri GL_TEXTURE_2D GL_TEXTURE_WRAP_S GL_REPEAT;
        TexParameteri GL_TEXTURE_2D GL_TEXTURE_WRAP_T GL_REPEAT;
        TexParameteri GL_TEXTURE_2D GL_TEXTURE_MIN_FILTER
                      GL_LINEAR_MIPMAP_LINEAR;
        TexParameteri GL_TEXTURE_2D GL_TEXTURE_MAG_FILTER GL_LINEAR;
        ImageFree true])
  | None => (0%nat, pre ++ [PrintFailure path; ImageFree false])
  end.

(** The body of the [for] loop of [loadCubemap], from index [i] on. *)
Fixpoint loadFaces (disk : string -> option Image) (i : nat)
    (faces : list string) : list Call :=
  match faces with
  | [] => []
  | path :: rest =>
      match disk path with
      | Some img =>
          [TexImage2D (GL_TEXTURE_CUBE_MAP_FACE i)
                      (cubemapFormat (imgChannels img))
                      (imgWidth img) (imgHeight img);
           ImageFree true]
      | None => [PrintFailure path; ImageFree false]
      end ++ loadFaces disk (S i) rest
  end.

Definition loadCubemap (disk : string -> option Image) (fresh : nat)
    (faces : list string) : nat * list Call :=
  (fresh,
   [SetFlip false; GenTextures fresh; BindTexture GL_TEXTURE_CUBE_MAP fresh] ++
   loadFaces disk 0 faces ++
   [TexParameteri GL_TEXTURE_CUBE_MAP GL_TEXTURE_MIN_FILTER GL_LINEAR;
    TexParameteri GL_TEXTURE_CUBE_MAP GL_TEXTURE_MAG_FILTER GL_LINEAR;
    TexParameteri GL_TEXTURE_CUBE_MAP GL_TEXTURE_WRAP_S GL_CLAMP_TO_EDGE;
    TexParameteri GL_TEXTURE_CUBE_MAP GL_TEXTURE_WRAP_T GL_CLAMP_TO_EDGE;
    TexParameteri GL_TEXTURE_CUBE_MAP GL_TEXTURE_WRAP_R GL_CLAMP_TO_EDGE]).

(** The images handed to OpenGL by a sequence of calls. *)
Fixpoint uploads (cs : list Call) : list (GLTarget * GLFormat * Z * Z) :=
  match cs with
  | [] => []
  | TexImage2D target format w h :: rest => (target, format, w, h) :: uploads rest
  | _ :: rest => uploads rest
  end.

(** Whether [stbi_load] can read a path. *)
Definition readable (disk : string -> option Image) (path : string) : bool :=
  match disk path with Some _ => true | None => false end.

(** A disk on which nothing can be read. *)
Definition emptyDisk : string -> option Image := fun _ => None.

(** ** The frame over an arithmetic without division *)

(** The operations the frame is written with: literals, the constant
    [glm::radians] multiplies by, [+], [-], [*], unary minus, [fabs], [sin],
    [cos], [min] and [max] (for [glm::clamp]) and the comparisons [<], [>]
    and [>=].  There is no division and no other partial operation. *)
Record Arith (A : Type) : Type := mkArith {
  ofZ : Z -> A;
  ofQ : QArith_base.Q -> A;
  radPerDeg : A;
  addA : A -> A -> A;
  subA : A -> A -> A;
  mulA : A -> A -> A;
  negA : A -> A;
  absA : A -> A;
  sinA : A -> A;
  cosA : A -> A;
  minA : A -> A -> A;
  maxA : A -> A -> A;
  ltA : A -> A -> bool;
  gtA : A -> A -> bool;
  geA : A -> A -> bool
}.

Record GVec3 (A : Type) : Type := mkGVec3 { gx : A; gy : A; gz : A }.

Record GState (A : Type) : Type := mkGState {
  gCarPos : GVec3 A;
  gCarYaw : A;
  gCarSpeed : A;
  gCameraPos : GVec3 A
}.

Arguments mkGVec3 {A} _ _ _.
Arguments gx {A} _.
Arguments gy {A} _.
Arguments gz {A} _.
Arguments mkGState {A} _ _ _ _.
Arguments gCarPos {A} _.
Arguments gCarYaw {A} _.
Arguments gCarSpeed {A} _.
Arguments gCameraPos {A} _.

Section OverArith.

Variable A : Type.
Variable ar : Arith A.

Local Notation "x [+] y" := (addA A ar x y) (at level 50, left associativity).
Local Notation "x [-] y" := (subA A ar x y) (at level 50, left associativity).
Local Notation "x [*] y" := (mulA A ar x y) (at level 40, left associativity).
Local Notation "[~] x" := (negA A ar x) (at level 35, right associativity).
Local Notation "[# n ]" := (ofZ A ar n).

(** The decimal literal [m / d]. *)
Definition dec (m : Z) (d : positive) : A :=
  ofQ A ar (QArith_base.Qmake m d).

Definition gadd (a b : GVec3 A) : GVec3 A :=
  mkGVec3 (gx a [+] gx b) (gy a [+] gy b) (gz a [+] gz b).

Definition gsub (a b : GVec3 A) : GVec3 A :=
  mkGVec3 (gx a [-] gx b) (gy a [-] gy b) (gz a [-] gz b).

Definition gscale (v : GVec3 A) (c : A) : GVec3 A :=
  mkGVec3 (gx v [*] c) (gy v [*] c) (gz v [*] c).

Definition gmix1 (x y a : A) : A := x [*] ([# 1] [-] a) [+] y [*] a.

Definition gmix (x y : GVec3 A) (a : A) : GVec3 A :=
  mkGVec3 (gmix1 (gx x) (gx y) a) (gmix1 (gy x) (gy y) a)
          (gmix1 (gz x) (gz y) a).

Definition gclamp (x lo hi : A) : A := minA A ar (maxA A ar x lo) hi.

Definition gcarSize : GVec3 A := mkGVec3 (dec 15 10) [# 1] [# 3].
Definition gwallPos : GVec3 A := mkGVec3 [# 0] [# 2] [# 20].
Definition gwallSize : GVec3 A := mkGVec3 [# 4] [# 4] (dec 5 10).

Definition gcheckCollision (posA sizeA posB sizeB : GVec3 A) : bool :=
  ltA A ar (absA A ar (gx posA [-] gx posB) [*] [# 2]) (gx sizeA [+] gx sizeB) &&
  ltA A ar (absA A ar (gy posA [-] gy posB) [*] [# 2]) (gy sizeA [+] gy sizeB) &&
  ltA A ar (absA A ar (gz posA [-] gz posB) [*] [# 2]) (gz sizeA [+] gz sizeB).

Definition gforward (yaw : A) : GVec3 A :=
  mkGVec3 (sinA A ar (yaw [*] radPerDeg A ar)) [# 0]
          (cosA A ar (yaw [*] radPerDeg A ar)).

Definition gaccelInput (k : nat -> bool) : A :=
  let a := [# 0] in
  let a := if k GLFW_KEY_W then a [+] [# 1] else a in
  let a := if k GLFW_KEY_S then a [-] [# 1] else a in
  a.

Definition gsteerInput (k : nat -> bool) : A :=
  let s := [# 0] in
  let s := if k GLFW_KEY_A then s [+] [# 1] else s in
  let s := if k GLFW_KEY_D then s [-] [# 1] else s in
  s.

Definition gintegrateSpeed (speed accel dt : A) : A :=
  if gtA A ar accel [# 0] then speed [+] [# 20] [*] accel [*] dt
  else if ltA A ar accel [# 0] then
    speed [+] ([~] [# 30]) [*] ([~] accel) [*] dt
  else if gtA A ar speed [# 0] then speed [-] [# 6] [*] dt
  else if ltA A ar speed [# 0] then speed [+] [# 6] [*] dt
  else speed.

Definition gclampSpeed (speed : A) : A :=
  let s := if ltA A ar (absA A ar speed) (dec 1 100) then [# 0] else speed in
  let s := if gtA A ar s [# 12] then [# 12] else s in
  let s :=
    if ltA A ar s (([~] [# 12]) [*] (dec 5 10))
    then ([~] [# 12]) [*] (dec 5 10) else s in
  s.

Definition gturnAmount (speed dt : A) : A :=
  [# 90] [*] (if geA A ar speed [# 0] then [# 1] else [# (-1)]) [*] dt.

(** Lines 249 to 301, with the same order of operations as [frame]. *)
Definition frameOver (s : GState A) (k : nat -> bool) (dt : A) : GState A :=
  let speed := gclampSpeed (gintegrateSpeed (gCarSpeed s) (gaccelInput k) dt) in
  let yaw := gCarYaw s [+] gsteerInput k [*] gturnAmount speed dt in
  let fwd := gforward yaw in
  let next := gadd (gCarPos s) (gscale (gscale fwd speed) dt) in
  let hit := gcheckCollision next gcarSize gwallPos gwallSize in
  let pos := if negb hit then next else gCarPos s in
  let speed' := if negb hit then speed else [# 0] in
  let desired := gadd (gsub pos (gscale fwd [# 8])) (mkGVec3 [# 0] [# 3] [# 0]) in
  mkGState pos yaw speed'
           (gmix (gCameraPos s) desired
                 (gclamp ([# 6] [*] dt) [# 0] [# 1])).

End OverArith.

(** The arithmetic of the real numbers, without its division. *)
Definition realArith : Arith R :=
  mkArith R IZR Q2R (PI / 180) Rplus Rminus Rmult Ropp Rabs sin cos Rmin Rmax
          Rltb Rgtb Rgeb.

Definition toGVec3 (v : vec3) : GVec3 R := mkGVec3 (vx v) (vy v) (vz v).

Definition toGState (s : State) : GState R :=
  mkGState (toGVec3 (carPos s)) (carYaw s) (carSpeed s)
           (toGVec3 (cameraPos s)).

(** A key array that differs from [k] only outside the array's bounds. *)
Definition beyondBounds (k : nat -> bool) : nat -> bool :=
  fun n => if Nat.ltb n 1024 then k n else negb (k n).

(** * Lemmas and theorems *)

Lemma Rltb_true (x y : R) : Rltb x y = true <-> x < y.
Proof. unfold Rltb; destruct (Rlt_dec x y); split; intros; try easy. Qed.

Lemma Rltb_false (x y : R) : Rltb x y = false <-> y <= x.
Proof.
  unfold Rltb; destruct (Rlt_dec x y); split; intros; try easy; lra.
Qed.

Lemma Rgtb_true (x y : R) : Rgtb x y = true <-> x > y.
Proof. unfold Rgtb; destruct (Rgt_dec x y); split; intros; try easy. Qed.

Lemma Rgtb_false (x y : R) : Rgtb x y = false <-> x <= y.
Proof.
  unfold Rgtb; destruct (Rgt_dec x y); split; intros; try easy; lra.
Qed.

Lemma Rgeb_true (x y : R) : Rgeb x y = true <-> x >= y.
Proof. unfold Rgeb; destruct (Rge_dec x y); split; intros; try easy. Qed.

Lemma Rgeb_false (x y : R) : Rgeb x y = false <-> x < y.
Proof.
  unfold Rgeb; destruct (Rge_dec x y); split; intros; try easy; lra.
Qed.

Lemma vec3_eq (a b : vec3) :
  vx a = vx b -> vy a = vy b -> vz a = vz b -> a = b.
Proof. destruct a, b; simpl; intros; subst; reflexivity. Qed.

(** ** Proof support *)

(** Succeeds on a term that holds no comparison of its own. *)
Ltac no_cmp t :=
  lazymatch t with
  | context [Rltb _ _] => fail
  | context [Rgtb _ _] => fail
  | context [Rgeb _ _] => fail
  | _ => idtac
  end.

(** Turns every boolean comparison of the goal into its inequality,
    innermost first. *)
Ltac split_cmp :=
  repeat match goal with
  | |- context [Rltb ?a ?b] =>
      no_cmp a; no_cmp b;
      let E := fresh "E" in
      destruct (Rltb a b) eqn:E;
      [apply Rltb_true in E | apply Rltb_false in E]
  | |- context [Rgtb ?a ?b] =>
      no_cmp a; no_cmp b;
      let E := fresh "E" in
      destruct (Rgtb a b) eqn:E;
      [apply Rgtb_true in E | apply Rgtb_false in E]
  | |- context [Rgeb ?a ?b] =>
      no_cmp a; no_cmp b;
      let E := fresh "E" in
      destruct (Rgeb a b) eqn:E;
      [apply Rgeb_true in E | apply Rgeb_false in E]
  end.

(** Opens every absolute value of the goal and of the hypotheses. *)
Ltac split_abs :=
  repeat match goal with
  | |- context [Rabs ?a] => unfold Rabs; destruct (Rcase_abs a)
  | H : context [Rabs ?a] |- _ => unfold Rabs in H; destruct (Rcase_abs a)
  end.

(** ** checkCollision *)

Lemma checkCollision_true (posA sizeA posB sizeB : vec3) :
  checkCollision posA sizeA posB sizeB = true <->
  overlapsOn (vx posA) (vx sizeA) (vx posB) (vx sizeB) /\
  overlapsOn (vy posA) (vy sizeA) (vy posB) (vy sizeB) /\
  overlapsOn (vz posA) (vz sizeA) (vz posB) (vz sizeB).
Proof.
  unfold checkCollision, overlapsOn.
  rewrite !andb_true_iff, !Rltb_true. tauto.
Qed.

Lemma checkCollision_false (posA sizeA posB sizeB : vec3) :
  checkCollision posA sizeA posB sizeB = false <->
  ~ (overlapsOn (vx posA) (vx sizeA) (vx posB) (vx sizeB) /\
     overlapsOn (vy posA) (vy sizeA) (vy posB) (vy sizeB) /\
     overlapsOn (vz posA) (vz sizeA) (vz posB) (vz sizeB)).
Proof.
  rewrite <- checkCollision_true.
  destruct (checkCollision posA sizeA posB sizeB); split; intros; easy.
Qed.

(** C3.  [checkCollision] answers true exactly when the strict test
    |posA - posB| * 2 < sizeA + sizeB holds on the x, the y and the z axis
    together; two boxes that touch on some axis (equality there) and are
    separated on none are reported as not overlapping. *)
Theorem checkCollision_strict_on_all_axes :
  forall posA sizeA posB sizeB : vec3,
    (checkCollision posA sizeA posB sizeB = true <->
       Rabs (vx posA - vx posB) * 2 < vx sizeA + vx sizeB /\
       Rabs (vy posA - vy posB) * 2 < vy sizeA + vy sizeB /\
       Rabs (vz posA - vz posB) * 2 < vz sizeA + vz sizeB) /\
    ((touchesOn (vx posA) (vx sizeA) (vx posB) (vx sizeB) \/
      touchesOn (vy posA) (vy sizeA) (vy posB) (vy sizeB) \/
      touchesOn (vz posA) (vz sizeA) (vz posB) (vz sizeB)) ->
     ~ separatedOn (vx posA) (vx sizeA) (vx posB) (vx sizeB) ->
     ~ separatedOn (vy posA) (vy sizeA) (vy posB) (vy sizeB) ->
     ~ separatedOn (vz posA) (vz sizeA) (vz posB) (vz sizeB) ->
     checkCollision posA sizeA posB sizeB = false).
Proof.
  intros posA sizeA posB sizeB. split.
  - apply checkCollision_true.
  - intros Htouch _ _ _. apply checkCollision_false.
    unfold overlapsOn, touchesOn in *. intros (Hx & Hy & Hz).
    destruct Htouch as [Ht | [Ht | Ht]]; lra.
Qed.

(** Two 2x2x2 cubes whose centres are 2 apart on x: their faces touch. *)
Lemma checkCollision_strict_on_all_axes_witness :
  checkCollision (mkVec3 0 0 0) (mkVec3 2 2 2)
                 (mkVec3 2 0 0) (mkVec3 2 2 2) = false.
Proof.
  apply (proj2 (checkCollision_strict_on_all_axes
                  (mkVec3 0 0 0) (mkVec3 2 2 2) (mkVec3 2 0 0) (mkVec3 2 2 2)));
    unfold touchesOn, separatedOn; simpl.
  - left. split_abs; lra.
  - split_abs; lra.
  - split_abs; lra.
  - split_abs; lra.
Defined.

Lemma checkCollision_self_positive (pos size : vec3) :
  checkCollision pos size pos size = true <->
  0 < vx size /\ 0 < vy size /\ 0 < vz size.
Proof.
  rewrite checkCollision_true. unfold overlapsOn.
  replace (vx pos - vx pos) with 0 by ring.
  replace (vy pos - vy pos) with 0 by ring.
  replace (vz pos - vz pos) with 0 by ring.
  rewrite Rabs_R0. split; intros (Hx & Hy & Hz); repeat split; lra.
Qed.

(** C7.  A box, of width, height and length that are not negative, tested
    against itself overlaps exactly when none of its three extents is 0. *)
Theorem checkCollision_self_iff_nonzero_extents :
  forall pos size : vec3,
    0 <= vx size -> 0 <= vy size -> 0 <= vz size ->
    (checkCollision pos size pos size = true <-> nonZeroExtents size).
Proof.
  intros pos size Hx Hy Hz.
  rewrite checkCollision_self_positive. unfold nonZeroExtents.
  split; intros (H1 & H2 & H3); repeat split; lra.
Qed.

(** The car's own box, and a box of no width. *)
Lemma checkCollision_self_iff_nonzero_extents_witness :
  (checkCollision (mkVec3 0 0 0) carSize (mkVec3 0 0 0) carSize = true <->
   nonZeroExtents carSize) /\
  (checkCollision wallPos (mkVec3 0 4 0.5) wallPos (mkVec3 0 4 0.5) = true <->
   nonZeroExtents (mkVec3 0 4 0.5)).
Proof.
  split.
  - apply (checkCollision_self_iff_nonzero_extents (mkVec3 0 0 0) carSize);
      unfold carSize; simpl; lra.
  - apply (checkCollision_self_iff_nonzero_extents wallPos (mkVec3 0 4 0.5));
      simpl; lra.
Defined.

(** ** Evaluating a frame on concrete numbers *)

Lemma radians_0 : radians 0 = 0.
Proof. unfold radians; field. Qed.

Lemma forward_0 : forward 0 = mkVec3 0 0 1.
Proof. unfold forward; rewrite radians_0, sin_0, cos_0; reflexivity. Qed.

(** Settles every comparison between closed arithmetic terms. *)
Ltac eval_cmp :=
  repeat match goal with
  | |- context [Rltb ?a ?b] =>
      first [ rewrite (proj2 (Rltb_true a b)) by (split_abs; lra)
            | rewrite (proj2 (Rltb_false a b)) by (split_abs; lra) ]
  | |- context [Rgtb ?a ?b] =>
      first [ rewrite (proj2 (Rgtb_true a b)) by (split_abs; lra)
            | rewrite (proj2 (Rgtb_false a b)) by (split_abs; lra) ]
  | |- context [Rgeb ?a ?b] =>
      first [ rewrite (proj2 (Rgeb_true a b)) by (split_abs; lra)
            | rewrite (proj2 (Rgeb_false a b)) by (split_abs; lra) ]
  end.

(** The speed and heading update, unfolded to arithmetic. *)
Ltac unfold_steer :=
  unfold steer, updateSpeed, integrateSpeed, clampSpeed, turnAmount,
    speedSign, accelInput, steerInput, MAX_SPEED, ACCELERATION, BRAKE,
    FRICTION, TURN_SPEED; simpl.

(** ** Collision resolution *)

Lemma resolveCollision_hit (s : State) (dt : R) :
  checkCollision (nextPos s dt) carSize wallPos wallSize = true ->
  resolveCollision s dt = mkState (carPos s) (carYaw s) 0 (cameraPos s).
Proof. unfold resolveCollision; intros ->; reflexivity. Qed.

Lemma resolveCollision_free (s : State) (dt : R) :
  checkCollision (nextPos s dt) carSize wallPos wallSize = false ->
  resolveCollision s dt =
  mkState (nextPos s dt) (carYaw s) (carSpeed s) (cameraPos s).
Proof. unfold resolveCollision; intros ->; reflexivity. Qed.

Lemma carPos_frame (s : State) (i : Input) :
  carPos (frame s i) = carPos (resolveCollision (steer s i) (deltaTime i)).
Proof. reflexivity. Qed.

Lemma carSpeed_frame (s : State) (i : Input) :
  carSpeed (frame s i) = carSpeed (resolveCollision (steer s i) (deltaTime i)).
Proof. reflexivity. Qed.

Lemma carYaw_frame (s : State) (i : Input) :
  carYaw (frame s i) = carYaw (steer s i).
Proof.
  unfold frame, updateCamera, resolveCollision; simpl.
  destruct (checkCollision _ _ _ _); reflexivity.
Qed.

Lemma carPos_frame_free (s : State) (i : Input) :
  hitsWall s i = false -> carPos (frame s i) = tentative s i.
Proof.
  unfold hitsWall, tentative. intros H.
  rewrite carPos_frame, (resolveCollision_free _ _ H). reflexivity.
Qed.

(** C1.  The tentative position is the position before the frame plus
    forward * speed * deltaTime.  If the car's box there overlaps the wall's
    box, the frame leaves the position as it was and the speed at 0, whatever
    the speed was; if it does not, the position becomes the tentative one. *)
Theorem frame_rejects_or_commits_move :
  forall (s : State) (i : Input),
    tentative s i =
      vadd (carPos s)
           (vscale (vscale (forward (carYaw (steer s i))) (carSpeed (steer s i)))
                   (deltaTime i)) /\
    (checkCollision (tentative s i) carSize wallPos wallSize = true ->
     carPos (frame s i) = carPos s /\ carSpeed (frame s i) = 0) /\
    (checkCollision (tentative s i) carSize wallPos wallSize = false ->
     carPos (frame s i) = tentative s i).
Proof.
  intros s i. split; [reflexivity | split]; intros H; unfold tentative in H.
  - rewrite carPos_frame, carSpeed_frame, (resolveCollision_hit _ _ H).
    split; reflexivity.
  - rewrite carPos_frame, (resolveCollision_free _ _ H). reflexivity.
Qed.

Lemma steer_nearWall_pressW :
  steer nearWall pressW = mkState (mkVec3 0 0 18.2) 0 2 (mkVec3 0 3 10.2).
Proof.
  unfold_steer. eval_cmp. f_equal; lra.
Qed.

Lemma tentative_nearWall_pressW :
  tentative nearWall pressW = mkVec3 0 0 18.4.
Proof.
  unfold tentative. rewrite steer_nearWall_pressW.
  unfold nextPos; simpl carYaw; rewrite forward_0; simpl.
  apply vec3_eq; simpl; lra.
Qed.

Lemma hitsWall_nearWall_pressW :
  checkCollision (tentative nearWall pressW) carSize wallPos wallSize = true.
Proof.
  rewrite tentative_nearWall_pressW.
  unfold checkCollision, carSize, wallPos, wallSize; simpl.
  eval_cmp. reflexivity.
Qed.

Lemma frame_rejects_or_commits_move_witness :
  carPos (frame nearWall pressW) = carPos nearWall /\
  carSpeed (frame nearWall pressW) = 0.
Proof.
  apply (proj1 (proj2 (frame_rejects_or_commits_move nearWall pressW))).
  exact hitsWall_nearWall_pressW.
Defined.

(** ** Heading *)

Lemma speedSign_0 : speedSign 0 = 1.
Proof. unfold speedSign. eval_cmp. reflexivity. Qed.

Lemma carYaw_steer (s : State) (i : Input) :
  carYaw (steer s i) =
  carYaw s + steerInput (keys i) * TURN_SPEED *
             speedSign (carSpeed (steer s i)) * deltaTime i.
Proof. unfold steer, turnAmount, speedSign; simpl. ring. Qed.

Lemma updateSpeed_rest (dt : R) : updateSpeed 0 0 dt = 0.
Proof.
  unfold updateSpeed, integrateSpeed, clampSpeed, MAX_SPEED.
  eval_cmp. reflexivity.
Qed.


Lemma steer_atWall_pressWA :
  steer atWall pressWA = mkState (mkVec3 0 0 19) 9 2 (mkVec3 0 3 11).
Proof.
  unfold_steer. eval_cmp. f_equal; lra.
Qed.

Lemma hitsWall_atWall_pressWA : hitsWall atWall pressWA = true.
Proof.
  unfold hitsWall, tentative. rewrite steer_atWall_pressWA.
  unfold nextPos, forward, checkCollision, carSize, wallPos, wallSize; simpl.
  pose proof (SIN_bound (radians 9)) as Hsin.
  pose proof (COS_bound (radians 9)) as Hcos.
  eval_cmp. reflexivity.
Qed.


(** ** Accelerator keys *)

Lemma integrateSpeed_no_accel (speed dt : R) :
  integrateSpeed speed 0 dt = coast speed dt.
Proof. unfold integrateSpeed, coast. eval_cmp. reflexivity. Qed.

Lemma accelInput_both (k : nat -> bool) :
  k GLFW_KEY_W = true -> k GLFW_KEY_S = true -> accelInput k = 0.
Proof. unfold accelInput; intros -> ->; ring. Qed.

Lemma accelInput_released (k : nat -> bool) : accelInput (releaseAccel k) = 0.
Proof. reflexivity. Qed.

Lemma steerInput_released (k : nat -> bool) :
  steerInput (releaseAccel k) = steerInput k.
Proof. reflexivity. Qed.

(** C9.  With the forward key and the reverse key both down the net
    accelerator input is 0, the speed is integrated by the friction branch,
    and the frame ends in the same state as the frame with both keys up. *)
Theorem frame_both_accel_keys_is_coasting :
  forall (s : State) (k : nat -> bool) (dt : R),
    k GLFW_KEY_W = true -> k GLFW_KEY_S = true ->
    accelInput k = 0 /\
    integrateSpeed (carSpeed s) (accelInput k) dt = coast (carSpeed s) dt /\
    frame s (mkInput k dt) = frame s (mkInput (releaseAccel k) dt).
Proof.
  intros s k dt HW HS.
  assert (Ha := accelInput_both k HW HS).
  split; [exact Ha | split].
  - rewrite Ha. apply integrateSpeed_no_accel.
  - unfold frame. f_equal. f_equal.
    unfold steer; simpl.
    rewrite Ha, accelInput_released, steerInput_released. reflexivity.
Qed.

Lemma frame_both_accel_keys_is_coasting_witness :
  frame initState (mkInput pressWS 0.1) =
  frame initState (mkInput (releaseAccel pressWS) 0.1).
Proof.
  apply (frame_both_accel_keys_is_coasting initState pressWS 0.1);
    reflexivity.
Defined.

(** ** A frame of no duration *)

Lemma clamp_0 : clamp (cameraSmoothSpeed * 0) 0 1 = 0.
Proof.
  unfold clamp. rewrite Rmult_0_r.
  rewrite Rmax_left by lra. rewrite Rmin_left by lra. reflexivity.
Qed.

Lemma mix_0 (x y : vec3) : mix x y 0 = x.
Proof. apply vec3_eq; unfold mix, mix1; simpl; ring. Qed.

Lemma nextPos_0 (s : State) : nextPos s 0 = carPos s.
Proof. apply vec3_eq; unfold nextPos; simpl; ring. Qed.

Lemma frame_over_realArith (s : State) (k : nat -> bool) (dt : R) :
  toGState (frame s (mkInput k dt)) = frameOver R realArith (toGState s) k dt.
Proof.
  unfold frame, updateCamera, resolveCollision, frameOver; simpl deltaTime.
  change (gcheckCollision R realArith _ _ _ _)
    with (checkCollision (nextPos (steer s (mkInput k dt)) dt)
                         carSize wallPos wallSize).
  destruct (negb (checkCollision _ _ _ _)); reflexivity.
Qed.

Lemma frame_reads_four_keys (s : State) (k k' : nat -> bool) (dt : R) :
  (forall n : nat, (n < 1024)%nat -> k' n = k n) ->
  frame s (mkInput k' dt) = frame s (mkInput k dt).
Proof.
  intros Hk.
  assert (Ha : accelInput k' = accelInput k).
  { unfold accelInput, GLFW_KEY_W, GLFW_KEY_S. rewrite !Hk by lia.
    reflexivity. }
  assert (Hs : steerInput k' = steerInput k).
  { unfold steerInput, GLFW_KEY_A, GLFW_KEY_D. rewrite !Hk by lia.
    reflexivity. }
  unfold frame. f_equal. f_equal. unfold steer; simpl.
  rewrite Ha, Hs. reflexivity.
Qed.



(** ** Camera *)

Lemma clamp_le_1 (x : R) : 0 <= clamp x 0 1 <= 1.
Proof.
  unfold clamp, Rmin, Rmax.
  destruct (Rle_dec x 0); destruct (Rle_dec _ 1); lra.
Qed.

(** C6.  After a frame each coordinate of the camera position is
    old * (1 - a) + desired * a, where desired = carPos - forward * 8 +
    (0, 3, 0) is taken at the car's new position and heading and the factor
    a is cameraSmoothSpeed * deltaTime cut off below at 0 and above at 1;
    the factor never exceeds 1; and when cameraSmoothSpeed * deltaTime >= 1
    the camera is at the desired position. *)
Theorem frame_camera_is_clamped_lerp :
  forall (s : State) (i : Input),
    let s' := frame s i in
    let t := cameraSmoothSpeed * deltaTime i in
    let dx := vx (carPos s') - sin (radians (carYaw s')) * 8 + 0 in
    let dy := vy (carPos s') - 0 * 8 + 3 in
    let dz := vz (carPos s') - cos (radians (carYaw s')) * 8 + 0 in
    exists a : R,
      (t <= 0 -> a = 0) /\ (0 <= t <= 1 -> a = t) /\ (1 <= t -> a = 1) /\
      a <= 1 /\
      vx (cameraPos s') = vx (cameraPos s) * (1 - a) + dx * a /\
      vy (cameraPos s') = vy (cameraPos s) * (1 - a) + dy * a /\
      vz (cameraPos s') = vz (cameraPos s) * (1 - a) + dz * a /\
      (t >= 1 -> cameraPos s' = mkVec3 dx dy dz).
Proof.
  intros s i s' t dx dy dz.
  exists (clamp t 0 1).
  assert (Hcam : cameraPos s' =
                 mix (cameraPos s) (mkVec3 dx dy dz) (clamp t 0 1)).
  { unfold s', dx, dy, dz, t, frame, updateCamera, desiredCameraPos; simpl.
    unfold resolveCollision. destruct (negb _); reflexivity. }
  assert (Hcases : (t <= 0 -> clamp t 0 1 = 0) /\
                   (0 <= t <= 1 -> clamp t 0 1 = t) /\
                   (1 <= t -> clamp t 0 1 = 1)).
  { unfold clamp, Rmin, Rmax.
    destruct (Rle_dec t 0); destruct (Rle_dec _ 1); repeat split; intros; lra. }
  destruct Hcases as (Hlow & Hmid & Hhigh).
  split; [exact Hlow | split; [exact Hmid | split; [exact Hhigh |]]].
  split; [apply clamp_le_1 |].
  rewrite Hcam. unfold mix, mix1; simpl.
  repeat split; try reflexivity.
  intros Hbig. rewrite Hhigh by lra.
  apply vec3_eq; simpl; ring.
Qed.

(** ** Speed *)

Lemma carSpeed_frame_free (s : State) (i : Input) :
  hitsWall s i = false ->
  carSpeed (frame s i) =
  updateSpeed (carSpeed s) (accelInput (keys i)) (deltaTime i).
Proof.
  unfold hitsWall, tentative. intros H.
  rewrite carSpeed_frame, (resolveCollision_free _ _ H). reflexivity.
Qed.

Lemma carSpeed_frame_hit (s : State) (i : Input) :
  hitsWall s i = true -> carSpeed (frame s i) = 0.
Proof.
  unfold hitsWall, tentative. intros H.
  rewrite carSpeed_frame, (resolveCollision_hit _ _ H). reflexivity.
Qed.

Lemma steer_rolling_idleFrame :
  steer rolling idleFrame =
  mkState (mkVec3 0 0 0) 0 (-0.03125) (mkVec3 0 3 (-8)).
Proof.
  unfold_steer. eval_cmp. f_equal; lra.
Qed.

Lemma hitsWall_rolling_idleFrame : hitsWall rolling idleFrame = false.
Proof.
  unfold hitsWall, tentative. rewrite steer_rolling_idleFrame.
  unfold nextPos; simpl carYaw; rewrite forward_0.
  unfold checkCollision, carSize, wallPos, wallSize; simpl.
  eval_cmp. reflexivity.
Qed.

(** C2.  The code at a coasting frame: from speed 1/16 with no accelerator
    key down and deltaTime = 1/64 > 0, the friction branch subtracts
    6/64 and the frame ends at speed -1/32, the sign opposite to the one
    it started with. *)
Theorem coasting_friction_overshoots_zero :
  accelInput (keys idleFrame) = 0 /\
  deltaTime idleFrame > 0 /\
  carSpeed rolling > 0 /\
  coast (carSpeed rolling) (deltaTime idleFrame) = -0.03125 /\
  carSpeed (frame rolling idleFrame) = -0.03125 /\
  carSpeed (frame rolling idleFrame) < 0.
Proof.
  assert (Hs : carSpeed (frame rolling idleFrame) = -0.03125).
  { rewrite (carSpeed_frame_free _ _ hitsWall_rolling_idleFrame).
    change (carSpeed (steer rolling idleFrame) = -0.03125).
    rewrite steer_rolling_idleFrame. reflexivity. }
  repeat split.
  - simpl; lra.
  - simpl; lra.
  - unfold coast, FRICTION; simpl. eval_cmp. lra.
  - exact Hs.
  - rewrite Hs. lra.
Qed.

(** At 60 frames per second the friction step is 0.1, ten times the width
    of the snap-to-zero window: a coasting car at speed 0.05 is thrown to
    -0.05 and back, and never comes to rest. *)
Lemma coasting_swings_around_zero :
  updateSpeed 0.05 0 (1 / 60) = -0.05 /\
  updateSpeed (-0.05) 0 (1 / 60) = 0.05.
Proof.
  unfold updateSpeed, integrateSpeed, clampSpeed, FRICTION, MAX_SPEED.
  split; eval_cmp; lra.
Qed.

Lemma clampSpeed_inRange (v : R) : inRange (clampSpeed v).
Proof.
  unfold inRange, clampSpeed, MAX_SPEED. split_cmp; lra.
Qed.

Lemma inRange_0 : inRange 0.
Proof. unfold inRange, MAX_SPEED; lra. Qed.

Lemma carSpeed_frame_inRange (s : State) (i : Input) :
  inRange (carSpeed (frame s i)).
Proof.
  destruct (hitsWall s i) eqn:H.
  - rewrite (carSpeed_frame_hit _ _ H). apply inRange_0.
  - rewrite (carSpeed_frame_free _ _ H). apply clampSpeed_inRange.
Qed.

Lemma carSpeed_run_inRange (ins : list Input) :
  forall s : State, inRange (carSpeed s) -> inRange (carSpeed (run s ins)).
Proof.
  induction ins as [| i rest IH]; intros s Hs; simpl.
  - exact Hs.
  - apply IH. apply carSpeed_frame_inRange.
Qed.

Lemma accelInput_reversing (i : Input) :
  reversing i -> accelInput (keys i) = -1.
Proof. unfold accelInput; intros [-> ->]; ring. Qed.

Lemma updateSpeed_reverse_floor (v dt : R) :
  v - BRAKE * dt <= - MAX_SPEED * 0.5 ->
  updateSpeed v (-1) dt = - MAX_SPEED * 0.5.
Proof.
  unfold updateSpeed, integrateSpeed, clampSpeed, BRAKE, MAX_SPEED.
  intros H. eval_cmp. split_cmp; lra.
Qed.

Lemma run_reverse_stays_at_floor (ins : list Input) :
  forall s : State,
    carSpeed s = - MAX_SPEED * 0.5 ->
    Forall reversing ins ->
    Forall (fun i => 0 <= deltaTime i) ins ->
    noHit s ins ->
    carSpeed (run s ins) = - MAX_SPEED * 0.5.
Proof.
  induction ins as [| i rest IH]; intros s Hs Hrev Hdt Hfree; simpl.
  - exact Hs.
  - inversion Hrev as [| ? ? Hi Hrest]; subst.
    inversion Hdt as [| ? ? Hd Hdrest]; subst.
    destruct Hfree as [Hfree1 Hfree].
    apply IH; try assumption.
    rewrite (carSpeed_frame_free _ _ Hfree1), (accelInput_reversing _ Hi).
    apply updateSpeed_reverse_floor.
    rewrite Hs. unfold BRAKE, MAX_SPEED. lra.
Qed.


Lemma steer_backing_pressS :
  steer backing pressS = mkState (mkVec3 0 0 0) 0 (-6) (mkVec3 0 3 (-8)).
Proof.
  unfold_steer. eval_cmp. f_equal; lra.
Qed.

Lemma hitsWall_backing_pressS : hitsWall backing pressS = false.
Proof.
  unfold hitsWall, tentative. rewrite steer_backing_pressS.
  unfold nextPos; simpl carYaw; rewrite forward_0.
  unfold checkCollision, carSize, wallPos, wallSize; simpl.
  eval_cmp. reflexivity.
Qed.


(** ** Sustained forward input *)

Lemma accelInput_accelerating (i : Input) :
  accelerating i -> accelInput (keys i) = 1.
Proof. unfold accelInput; intros [-> ->]; ring. Qed.

Lemma updateSpeed_forward (v dt : R) :
  0.01 <= v + ACCELERATION * dt ->
  updateSpeed v 1 dt = Rmin MAX_SPEED (v + ACCELERATION * dt).
Proof.
  unfold updateSpeed, integrateSpeed, clampSpeed, ACCELERATION, MAX_SPEED.
  intros H. eval_cmp. unfold Rmin.
  destruct (Rle_dec 12 (v + 20 * dt)); split_cmp; lra.
Qed.

Lemma run_app (ins ins' : list Input) :
  forall s : State, run s (ins ++ ins') = run (run s ins) ins'.
Proof.
  induction ins as [| i rest IH]; intros s; simpl; [reflexivity | apply IH].
Qed.

Lemma noHit_app (ins ins' : list Input) :
  forall s : State,
    noHit s (ins ++ ins') <-> noHit s ins /\ noHit (run s ins) ins'.
Proof.
  induction ins as [| i rest IH]; intros s; simpl.
  - tauto.
  - rewrite IH. tauto.
Qed.

Lemma run_forward_steps (ins : list Input) :
  forall s : State,
    0.01 <= carSpeed s <= MAX_SPEED ->
    Forall accelerating ins ->
    Forall (fun j => 0 <= deltaTime j) ins ->
    noHit s ins ->
    carSpeed (run s ins) = speedUp (carSpeed s) ins /\
    carSpeed s <= carSpeed (run s ins) <= MAX_SPEED.
Proof.
  induction ins as [| i rest IH]; intros s Hs Hfwd Hdt Hfree; simpl.
  - split; [reflexivity | lra].
  - inversion Hfwd as [| ? ? Hi Hrest]; subst.
    inversion Hdt as [| ? ? Hd Hdrest]; subst.
    destruct Hfree as [Hfree1 Hfree].
    assert (Hstep : carSpeed (frame s i) =
                    Rmin MAX_SPEED (carSpeed s + ACCELERATION * deltaTime i)).
    { rewrite (carSpeed_frame_free _ _ Hfree1), (accelInput_accelerating _ Hi).
      apply updateSpeed_forward. unfold ACCELERATION. lra. }
    assert (Hs' : 0.01 <= carSpeed (frame s i) <= MAX_SPEED /\
                  carSpeed s <= carSpeed (frame s i)).
    { rewrite Hstep. unfold MAX_SPEED, ACCELERATION, Rmin in *.
      destruct (Rle_dec 12 _); lra. }
    destruct Hs' as [Hrange Hup].
    destruct (IH (frame s i) Hrange Hrest Hdrest Hfree) as [Hrun Hmono].
    rewrite <- Hstep. split; [exact Hrun | lra].
Qed.

(** C4 (amended).  From speed 0, with the forward key down and the reverse
    key up in every frame, no move rejected, a first frame of at least
    0.01 / ACCELERATION seconds and no negative frame time after it, every
    frame sets the speed to min (MAX_SPEED, speed + ACCELERATION * deltaTime):
    the speed after the run is this recurrence applied frame by frame from 0,
    it is positive and at most MAX_SPEED, and it is not below the speed after
    any earlier frame of the run. *)
Theorem forward_run_speed :
  forall (s : State) (i0 : Input) (rest : list Input),
    carSpeed s = 0 ->
    Forall accelerating (i0 :: rest) ->
    0.01 <= ACCELERATION * deltaTime i0 ->
    Forall (fun j => 0 <= deltaTime j) rest ->
    noHit s (i0 :: rest) ->
    carSpeed (run s (i0 :: rest)) = speedUp 0 (i0 :: rest) /\
    0 < carSpeed (run s (i0 :: rest)) <= MAX_SPEED /\
    (forall pre post : list Input,
       i0 :: rest = pre ++ post ->
       carSpeed (run s pre) <= carSpeed (run s (i0 :: rest))).
Proof.
  intros s i0 rest Hs Hfwd H0 Hdt [Hfree0 Hfree].
  inversion Hfwd as [| ? ? Hi0 Hrest]; subst.
  assert (Hstep : carSpeed (frame s i0) =
                  Rmin MAX_SPEED (0 + ACCELERATION * deltaTime i0)).
  { rewrite (carSpeed_frame_free _ _ Hfree0), (accelInput_accelerating _ Hi0).
    rewrite Hs. apply updateSpeed_forward. lra. }
  assert (Hrange : 0.01 <= carSpeed (frame s i0) <= MAX_SPEED).
  { rewrite Hstep. unfold MAX_SPEED, ACCELERATION, Rmin in *.
    destruct (Rle_dec 12 _); lra. }
  destruct (run_forward_steps rest (frame s i0) Hrange Hrest Hdt Hfree)
    as [Hrun Hmono].
  split; [| split].
  - simpl. rewrite <- Hstep. exact Hrun.
  - simpl. lra.
  - intros pre post Hsplit. destruct pre as [| i pre'].
    + simpl. rewrite Hs. lra.
    + simpl in Hsplit. injection Hsplit as <- Hrest'. subst rest.
      simpl. rewrite run_app.
      apply Forall_app in Hrest. destruct Hrest as [Hpre Hpost].
      apply Forall_app in Hdt. destruct Hdt as [Hdpre Hdpost].
      apply noHit_app in Hfree. destruct Hfree as [Hfpre Hfpost].
      destruct (run_forward_steps pre' (frame s i0) Hrange Hpre Hdpre Hfpre)
        as [_ Hmid].
      assert (Hrange' : 0.01 <= carSpeed (run (frame s i0) pre') <= MAX_SPEED)
        by lra.
      destruct (run_forward_steps post _ Hrange' Hpost Hdpost Hfpost)
        as [_ Hend].
      lra.
Qed.

(** The move test reads the car only, not the camera. *)
Lemma hitsWall_car (s s' : State) (i : Input) :
  carPos s = carPos s' -> carYaw s = carYaw s' -> carSpeed s = carSpeed s' ->
  hitsWall s i = hitsWall s' i.
Proof.
  destruct s, s'; simpl; intros -> -> ->. reflexivity.
Qed.

Lemma frame_free_car (s : State) (i : Input) :
  hitsWall s i = false ->
  carPos (frame s i) = tentative s i /\
  carYaw (frame s i) = carYaw (steer s i) /\
  carSpeed (frame s i) = carSpeed (steer s i).
Proof.
  intros H. repeat split.
  - apply (carPos_frame_free s i H).
  - apply carYaw_frame.
  - apply (carSpeed_frame_free s i H).
Qed.

(** Two tenths of a second of forward key from the start. *)
Lemma hitsWall_initState_pressW : hitsWall initState pressW = false.
Proof.
  unfold hitsWall, tentative.
  assert (Hst : steer initState pressW =
                mkState (mkVec3 0 0 0) 0 2 (cameraPos initState)).
  { unfold_steer. eval_cmp. f_equal; lra. }
  rewrite Hst. unfold nextPos; simpl carYaw; rewrite forward_0.
  unfold checkCollision, carSize, wallPos, wallSize; simpl.
  eval_cmp. reflexivity.
Qed.

Lemma hitsWall_afterFirstPress : hitsWall afterFirstPress pressW = false.
Proof.
  unfold hitsWall, tentative.
  assert (Hst : steer afterFirstPress pressW =
                mkState (mkVec3 0 0 0.2) 0 4 (mkVec3 0 3 (-8))).
  { unfold_steer. eval_cmp. f_equal; lra. }
  rewrite Hst. unfold nextPos; simpl carYaw; rewrite forward_0.
  unfold checkCollision, carSize, wallPos, wallSize; simpl.
  eval_cmp. reflexivity.
Qed.

Lemma noHit_two_presses : noHit initState [pressW; pressW].
Proof.
  split; [exact hitsWall_initState_pressW | split; [| exact I]].
  destruct (frame_free_car _ _ hitsWall_initState_pressW) as (Hp & Hy & Hv).
  rewrite <- hitsWall_afterFirstPress. apply hitsWall_car.
  - rewrite Hp. unfold tentative, nextPos.
    replace (carYaw (steer initState pressW)) with 0
      by (unfold_steer; lra).
    rewrite forward_0. unfold_steer. eval_cmp.
    apply vec3_eq; simpl; lra.
  - rewrite Hy. unfold_steer. lra.
  - rewrite Hv. unfold_steer. eval_cmp. lra.
Qed.

Lemma forward_run_speed_witness :
  carSpeed (run initState [pressW; pressW]) = speedUp 0 [pressW; pressW] /\
  0 < carSpeed (run initState [pressW; pressW]) <= MAX_SPEED /\
  (forall pre post : list Input,
     [pressW; pressW] = pre ++ post ->
     carSpeed (run initState pre) <= carSpeed (run initState [pressW; pressW])).
Proof.
  apply (forward_run_speed initState pressW [pressW]).
  - reflexivity.
  - repeat constructor.
  - unfold ACCELERATION; simpl. lra.
  - repeat constructor. simpl. lra.
  - exact noHit_two_presses.
Defined.

Lemma updateSpeed_tinyW :
  updateSpeed 0 (accelInput (keys tinyW)) (deltaTime tinyW) = 0.
Proof.
  unfold updateSpeed, integrateSpeed, clampSpeed, accelInput, ACCELERATION,
    MAX_SPEED; simpl.
  eval_cmp. reflexivity.
Qed.

Lemma tentative_tinyW (s : State) :
  carSpeed s = 0 -> tentative s tinyW = carPos s.
Proof.
  intros Hs.
  assert (Hv : carSpeed (steer s tinyW) = 0).
  { unfold steer. cbn [carSpeed]. rewrite Hs. apply updateSpeed_tinyW. }
  unfold tentative, nextPos. rewrite Hv.
  change (carPos (steer s tinyW)) with (carPos s).
  apply vec3_eq; unfold vadd, vscale; cbn [vx vy vz]; ring.
Qed.

Lemma frame_tinyW (s : State) :
  carPos s = mkVec3 0 0 0 -> carSpeed s = 0 ->
  hitsWall s tinyW = false /\
  carPos (frame s tinyW) = mkVec3 0 0 0 /\
  carSpeed (frame s tinyW) = 0.
Proof.
  intros Hp Hs.
  assert (Hfree : hitsWall s tinyW = false).
  { unfold hitsWall. rewrite (tentative_tinyW s Hs), Hp.
    unfold checkCollision, carSize, wallPos, wallSize; simpl.
    eval_cmp. reflexivity. }
  split; [exact Hfree | split].
  - rewrite (carPos_frame_free _ _ Hfree), (tentative_tinyW s Hs). exact Hp.
  - rewrite (carSpeed_frame_free _ _ Hfree), Hs. apply updateSpeed_tinyW.
Qed.

Lemma run_tinyW (n : nat) :
  forall s : State,
    carPos s = mkVec3 0 0 0 -> carSpeed s = 0 ->
    noHit s (repeat tinyW n) /\ carSpeed (run s (repeat tinyW n)) = 0.
Proof.
  induction n as [| n IH]; intros s Hp Hs; simpl.
  - split; [exact I | exact Hs].
  - destruct (frame_tinyW s Hp Hs) as (Hfree & Hp' & Hs').
    destruct (IH _ Hp' Hs') as [Hno Hv].
    split; [split; assumption | exact Hv].
Qed.

Lemma elapsed_repeat (i : Input) (n : nat) :
  elapsed (repeat i n) = INR n * deltaTime i.
Proof.
  induction n as [| n IH].
  - simpl. ring.
  - rewrite S_INR. simpl repeat. simpl elapsed. rewrite IH. ring.
Qed.

Lemma elapsed_tinyRun : elapsed tinyRun = 1.
Proof.
  unfold tinyRun. rewrite elapsed_repeat, INR_IZR_INZ.
  change (Z.of_nat 2500) with 2500%Z. simpl. lra.
Qed.

(** A full second of forward key from rest, in frames of 0.0004 second,
    with no move rejected: every frame's speed 20 * 0.0004 = 0.008 is below
    0.01 and is set back to 0, so the speed ends at 0, not at
    min (12, 20 * 1) = 12. *)
Lemma forward_run_speed_stuck_at_rest :
  carSpeed initState = 0 /\
  Forall accelerating tinyRun /\
  noHit initState tinyRun /\
  elapsed tinyRun = 1 /\
  carSpeed (run initState tinyRun) = 0 /\
  carSpeed (run initState tinyRun) <>
    Rmin MAX_SPEED (ACCELERATION * elapsed tinyRun).
Proof.
  destruct (run_tinyW 2500 initState eq_refl eq_refl) as [Hno Hv].
  fold tinyRun in Hno, Hv.
  split; [reflexivity |].
  split; [| split; [exact Hno | split; [exact elapsed_tinyRun |]]].
  - unfold tinyRun. apply Forall_forall. intros i Hi.
    apply repeat_spec in Hi. subst i. split; reflexivity.
  - split; [exact Hv |].
    rewrite Hv, elapsed_tinyRun. unfold MAX_SPEED, ACCELERATION, Rmin.
    destruct (Rle_dec 12 (20 * 1)); lra.
Qed.

(** * Further properties of the simulation *)

(** ** checkCollision *)

(** X1.  The overlap test does not depend on the order of the two boxes. *)
Theorem checkCollision_sym :
  forall posA sizeA posB sizeB : vec3,
    checkCollision posA sizeA posB sizeB = checkCollision posB sizeB posA sizeA.
Proof.
  intros posA sizeA posB sizeB. unfold checkCollision.
  rewrite (Rabs_minus_sym (vx posA)), (Rabs_minus_sym (vy posA)),
    (Rabs_minus_sym (vz posA)).
  rewrite (Rplus_comm (vx sizeA)), (Rplus_comm (vy sizeA)),
    (Rplus_comm (vz sizeA)).
  reflexivity.
Qed.

(** ** The car and the wall *)

Lemma frame_keeps_clear (s : State) (i : Input) :
  clearOfWall s -> clearOfWall (frame s i).
Proof.
  unfold clearOfWall. intros Hs. destruct (hitsWall s i) eqn:Hhit.
  - unfold hitsWall, tentative in Hhit.
    rewrite carPos_frame, (resolveCollision_hit _ _ Hhit). exact Hs.
  - rewrite (carPos_frame_free _ _ Hhit). exact Hhit.
Qed.

(** X3.  A car whose box is clear of the wall's box stays clear of it
    through every run of frames, whatever the keys and frame times. *)
Theorem run_keeps_clear :
  forall (ins : list Input) (s : State),
    clearOfWall s -> clearOfWall (run s ins).
Proof.
  induction ins as [| i rest IH]; intros s Hs; simpl.
  - exact Hs.
  - apply IH, frame_keeps_clear, Hs.
Qed.

Lemma clearOfWall_initState : clearOfWall initState.
Proof.
  unfold clearOfWall, checkCollision, carSize, wallPos, wallSize; simpl.
  eval_cmp. reflexivity.
Qed.

Lemma run_keeps_clear_witness : clearOfWall (run initState [pressW; pressWA]).
Proof.
  apply (run_keeps_clear [pressW; pressWA] initState).
  exact clearOfWall_initState.
Defined.

Lemma carPos_frame_cases (s : State) (i : Input) :
  carPos (frame s i) = if hitsWall s i then carPos s else tentative s i.
Proof.
  destruct (hitsWall s i) eqn:Hhit.
  - unfold hitsWall, tentative in Hhit.
    rewrite carPos_frame, (resolveCollision_hit _ _ Hhit). reflexivity.
  - apply carPos_frame_free, Hhit.
Qed.

Lemma vy_frame (s : State) (i : Input) :
  vy (carPos (frame s i)) = vy (carPos s).
Proof.
  rewrite carPos_frame_cases. destruct (hitsWall s i); [reflexivity |].
  unfold tentative, nextPos, forward; simpl. ring.
Qed.

(** X4.  The car never leaves its height: the y coordinate of its position
    is the same after any run of frames. *)
Theorem run_keeps_height :
  forall (ins : list Input) (s : State),
    vy (carPos (run s ins)) = vy (carPos s).
Proof.
  induction ins as [| i rest IH]; intros s; simpl.
  - reflexivity.
  - rewrite IH. apply vy_frame.
Qed.

(** ** Standing still *)

Lemma carSpeed_frame_cases (s : State) (i : Input) :
  carSpeed (frame s i) = if hitsWall s i then 0 else carSpeed (steer s i).
Proof.
  destruct (hitsWall s i) eqn:Hhit.
  - apply carSpeed_frame_hit, Hhit.
  - apply carSpeed_frame_free, Hhit.
Qed.

Lemma frame_standing_car (s : State) (i : Input) :
  carSpeed s = 0 -> idle i ->
  carPos (frame s i) = carPos s /\ carYaw (frame s i) = carYaw s /\
  carSpeed (frame s i) = 0.
Proof.
  intros Hv [Ha Hs].
  assert (Hup : carSpeed (steer s i) = 0).
  { unfold steer; simpl. rewrite Ha, Hv. apply updateSpeed_rest. }
  assert (Hnext : tentative s i = carPos s).
  { unfold tentative, nextPos. rewrite Hup.
    change (carPos (steer s i)) with (carPos s).
    apply vec3_eq; unfold vadd, vscale; cbn [vx vy vz]; ring. }
  repeat split.
  - rewrite carPos_frame_cases, Hnext. destruct (hitsWall s i); reflexivity.
  - rewrite carYaw_frame. unfold steer; simpl. rewrite Hs. ring.
  - rewrite carSpeed_frame_cases, Hup. destruct (hitsWall s i); reflexivity.
Qed.

(** X6.  A standing car stays where it is: from speed 0, through any run
    of frames in which the accelerator and the steering have no net input,
    whatever the frame times, its position, its heading and its speed 0
    come out unchanged. *)
Theorem run_standing_car_stays :
  forall (ins : list Input) (s : State),
    carSpeed s = 0 ->
    Forall idle ins ->
    carPos (run s ins) = carPos s /\
    carYaw (run s ins) = carYaw s /\
    carSpeed (run s ins) = 0.
Proof.
  induction ins as [| i rest IH]; intros s Hv Hidle; simpl.
  - repeat split. exact Hv.
  - inversion Hidle as [| ? ? Hi Hrest]; subst.
    destruct (frame_standing_car s i Hv Hi) as (Hp & Hy & Hv').
    destruct (IH (frame s i) Hv' Hrest) as (IHp & IHy & IHv).
    rewrite IHp, IHy, Hp, Hy. repeat split. exact IHv.
Qed.

Lemma run_standing_car_stays_witness :
  carPos (run nearWall [idleSecond; mkInput pressWS 0.1; idleFrame]) =
    carPos nearWall /\
  carYaw (run nearWall [idleSecond; mkInput pressWS 0.1; idleFrame]) =
    carYaw nearWall /\
  carSpeed (run nearWall [idleSecond; mkInput pressWS 0.1; idleFrame]) = 0.
Proof.
  apply (run_standing_car_stays
           [idleSecond; mkInput pressWS 0.1; idleFrame] nearWall).
  - reflexivity.
  - apply Forall_cons; [split; reflexivity |].
    apply Forall_cons; [split; [unfold accelInput; simpl; ring | reflexivity] |].
    apply Forall_cons; [split; reflexivity | apply Forall_nil].
Defined.

(** A camera 4 to the side of its desired place behind a standing car:
    after a tenth of a second it has come 0.6 of the way, after a whole
    second it is there. *)
Lemma frame_camera_is_clamped_lerp_witness :
  cameraPos (frame lagging idleTenth) = mkVec3 1.6 3 (-8) /\
  cameraPos (frame lagging idleSecond) = mkVec3 0 3 (-8).
Proof.
  assert (Hidle : forall dt, idle (mkInput noKeys dt)) by (split; reflexivity).
  split.
  - destruct (frame_camera_is_clamped_lerp lagging idleTenth)
      as (a & _ & Hmid & _ & _ & Hx & Hy & Hz & _).
    destruct (frame_standing_car lagging idleTenth eq_refl (Hidle 0.1))
      as (Hp & Hyaw & _).
    rewrite Hp in Hx, Hy, Hz. rewrite Hyaw in Hx, Hz. simpl in Hx, Hy, Hz.
    rewrite radians_0 in Hx, Hz. rewrite sin_0 in Hx. rewrite cos_0 in Hz.
    assert (Ha : a = cameraSmoothSpeed * deltaTime idleTenth).
    { apply Hmid. unfold cameraSmoothSpeed; simpl. lra. }
    unfold cameraSmoothSpeed in Ha; simpl in Ha.
    apply vec3_eq; simpl; lra.
  - destruct (frame_camera_is_clamped_lerp lagging idleSecond)
      as (a & _ & _ & _ & _ & _ & _ & _ & Hsat).
    destruct (frame_standing_car lagging idleSecond eq_refl (Hidle 1))
      as (Hp & Hyaw & _).
    rewrite Hsat by (unfold cameraSmoothSpeed; simpl; lra).
    rewrite Hp, Hyaw. simpl. rewrite radians_0, sin_0, cos_0.
    apply vec3_eq; simpl; lra.
Defined.

(** ** Coasting *)

(** X7.  Coasting at a frame time whose friction step FRICTION * deltaTime
    does not exceed the magnitude of the speed: the speed keeps its sign
    (or becomes 0) and does not grow in magnitude; and when the step stops
    at least 0.01 short of zero, a speed inside the clamp interval loses
    exactly FRICTION * deltaTime of its magnitude. *)
Theorem coasting_within_friction_budget :
  forall v dt : R,
    0 <= dt ->
    FRICTION * dt <= Rabs v ->
    0 <= v * updateSpeed v 0 dt /\
    Rabs (updateSpeed v 0 dt) <= Rabs v /\
    (inRange v -> FRICTION * dt + 0.01 <= Rabs v ->
     Rabs (updateSpeed v 0 dt) = Rabs v - FRICTION * dt).
Proof.
  intros v dt Hdt Hbudget.
  unfold updateSpeed, integrateSpeed, clampSpeed, inRange, FRICTION,
    MAX_SPEED in *.
  rewrite (proj2 (Rgtb_false 0 0)) by lra.
  rewrite (proj2 (Rltb_false 0 0)) by lra.
  split_cmp; split_abs; repeat split; intros; try nra.
Qed.

Lemma coasting_within_friction_budget_witness :
  0 <= 3 * updateSpeed 3 0 0.25 /\
  Rabs (updateSpeed 3 0 0.25) <= Rabs 3 /\
  (inRange 3 -> FRICTION * 0.25 + 0.01 <= Rabs 3 ->
   Rabs (updateSpeed 3 0 0.25) = Rabs 3 - FRICTION * 0.25).
Proof.
  apply (coasting_within_friction_budget 3 0.25).
  - lra.
  - unfold FRICTION. rewrite Rabs_right; lra.
Defined.

(** ** Heading over a run *)

Lemma updateSpeed_forward_nonneg (v dt : R) :
  0 <= v -> 0 <= dt -> 0 <= updateSpeed v 1 dt.
Proof.
  unfold updateSpeed, integrateSpeed, clampSpeed, ACCELERATION, MAX_SPEED.
  intros Hv Hdt. eval_cmp. split_cmp; lra.
Qed.

Lemma speedSign_nonneg (v : R) : 0 <= v -> speedSign v = 1.
Proof.
  intros Hv. unfold speedSign.
  rewrite (proj2 (Rgeb_true v 0)) by lra. reflexivity.
Qed.

Lemma speedSign_neg (v : R) : v < 0 -> speedSign v = -1.
Proof.
  intros Hv. unfold speedSign.
  rewrite (proj2 (Rgeb_false v 0)) by lra. reflexivity.
Qed.

Lemma run_snoc (ins : list Input) (i : Input) (s : State) :
  run s (ins ++ [i]) = frame (run s ins) i.
Proof. rewrite run_app. reflexivity. Qed.

Lemma carYaw_frame_turn (s : State) (i : Input) :
  carYaw (frame s i) =
  carYaw s + steerInput (keys i) *
             (TURN_SPEED * speedSign (carSpeed (steer s i)) * deltaTime i).
Proof. rewrite carYaw_frame. reflexivity. Qed.

Lemma run_forward_nonneg (ins : list Input) :
  forall s : State,
    0 <= carSpeed s ->
    Forall accelerating ins ->
    Forall (fun j => 0 <= deltaTime j) ins ->
    0 <= carSpeed (run s ins).
Proof.
  induction ins as [| i rest IH]; intros s Hv Hfwd Hdt; simpl.
  - exact Hv.
  - inversion Hfwd as [| ? ? Hi Hrest]; subst.
    inversion Hdt as [| ? ? Hd Hdrest]; subst.
    apply IH; try assumption.
    rewrite carSpeed_frame_cases. destruct (hitsWall s i); [lra |].
    unfold steer; simpl. rewrite (accelInput_accelerating _ Hi).
    apply updateSpeed_forward_nonneg; assumption.
Qed.

(** X8.  While the forward key is down and the reverse key up, from a
    non-negative speed and with non-negative frame times, the speed is
    never negative, wall contacts included, so steering is never inverted:
    every frame of such a run adds steerInput * (TURN_SPEED * 1 * deltaTime)
    to the heading. *)
Theorem forward_run_steers_straight :
  forall (ins : list Input) (i : Input) (s : State),
    0 <= carSpeed s ->
    Forall accelerating (ins ++ [i]) ->
    Forall (fun j => 0 <= deltaTime j) (ins ++ [i]) ->
    0 <= carSpeed (run s ins) /\
    0 <= carSpeed (run s (ins ++ [i])) /\
    carYaw (run s (ins ++ [i])) =
      carYaw (run s ins) +
      steerInput (keys i) * (TURN_SPEED * 1 * deltaTime i).
Proof.
  intros ins i s Hv Hfwd Hdt.
  assert (Hall := run_forward_nonneg (ins ++ [i]) s Hv Hfwd Hdt).
  apply Forall_app in Hfwd. destruct Hfwd as [Hfwd Hi].
  apply Forall_app in Hdt. destruct Hdt as [Hdt Hd].
  inversion Hi as [| ? ? Hi' _]; subst. inversion Hd as [| ? ? Hd' _]; subst.
  assert (Hpre := run_forward_nonneg ins s Hv Hfwd Hdt).
  split; [exact Hpre | split; [exact Hall |]].
  rewrite run_snoc, carYaw_frame_turn, speedSign_nonneg; [reflexivity |].
  unfold steer; simpl. rewrite (accelInput_accelerating _ Hi').
  apply updateSpeed_forward_nonneg; assumption.
Qed.

Lemma forward_run_steers_straight_witness :
  0 <= carSpeed (run nearWall [pressW; pressWA]) /\
  0 <= carSpeed (run nearWall ([pressW; pressWA] ++ [pressWA])) /\
  carYaw (run nearWall ([pressW; pressWA] ++ [pressWA])) =
    carYaw (run nearWall [pressW; pressWA]) +
    steerInput (keys pressWA) * (TURN_SPEED * 1 * deltaTime pressWA).
Proof.
  apply (forward_run_steers_straight [pressW; pressWA] pressWA nearWall).
  - simpl. lra.
  - repeat constructor.
  - repeat constructor; simpl; lra.
Defined.

Lemma updateSpeed_reverse_neg (v dt : R) :
  v <= 0 -> 0.01 <= BRAKE * dt -> updateSpeed v (-1) dt < 0.
Proof.
  unfold updateSpeed, integrateSpeed, clampSpeed, BRAKE, MAX_SPEED.
  intros Hv Hdt. eval_cmp. split_cmp; lra.
Qed.

Lemma run_reverse_nonpos (ins : list Input) :
  forall s : State,
    carSpeed s <= 0 ->
    Forall reversing ins ->
    Forall (fun j => 0.01 <= BRAKE * deltaTime j) ins ->
    carSpeed (run s ins) <= 0.
Proof.
  induction ins as [| i rest IH]; intros s Hv Hrev Hdt; simpl.
  - exact Hv.
  - inversion Hrev as [| ? ? Hi Hrest]; subst.
    inversion Hdt as [| ? ? Hd Hdrest]; subst.
    apply IH; try assumption.
    rewrite carSpeed_frame_cases. destruct (hitsWall s i); [lra |].
    unfold steer; simpl. rewrite (accelInput_reversing _ Hi).
    apply Rlt_le, updateSpeed_reverse_neg; assumption.
Qed.

(** X9.  While the reverse key is down and the forward key up, from a
    speed that is not positive and with every frame at least 0.01 / BRAKE
    seconds long, the speed is never positive, wall contacts included, and
    the speed a frame updates is negative, so steering is inverted
    throughout: every frame of such a run adds
    steerInput * (TURN_SPEED * -1 * deltaTime) to the heading. *)
Theorem reverse_run_steers_inverted :
  forall (ins : list Input) (i : Input) (s : State),
    carSpeed s <= 0 ->
    Forall reversing (ins ++ [i]) ->
    Forall (fun j => 0.01 <= BRAKE * deltaTime j) (ins ++ [i]) ->
    carSpeed (run s ins) <= 0 /\
    carSpeed (run s (ins ++ [i])) <= 0 /\
    carYaw (run s (ins ++ [i])) =
      carYaw (run s ins) +
      steerInput (keys i) * (TURN_SPEED * -1 * deltaTime i).
Proof.
  intros ins i s Hv Hrev Hdt.
  assert (Hall := run_reverse_nonpos (ins ++ [i]) s Hv Hrev Hdt).
  apply Forall_app in Hrev. destruct Hrev as [Hrev Hi].
  apply Forall_app in Hdt. destruct Hdt as [Hdt Hd].
  inversion Hi as [| ? ? Hi' _]; subst. inversion Hd as [| ? ? Hd' _]; subst.
  assert (Hpre := run_reverse_nonpos ins s Hv Hrev Hdt).
  split; [exact Hpre | split; [exact Hall |]].
  rewrite run_snoc, carYaw_frame_turn, speedSign_neg; [reflexivity |].
  unfold steer; simpl. rewrite (accelInput_reversing _ Hi').
  apply updateSpeed_reverse_neg; assumption.
Qed.

Lemma reverse_run_steers_inverted_witness :
  carSpeed (run initState [pressSA]) <= 0 /\
  carSpeed (run initState ([pressSA] ++ [pressSA])) <= 0 /\
  carYaw (run initState ([pressSA] ++ [pressSA])) =
    carYaw (run initState [pressSA]) +
    steerInput (keys pressSA) * (TURN_SPEED * -1 * deltaTime pressSA).
Proof.
  apply (reverse_run_steers_inverted [pressSA] pressSA initState).
  - simpl. lra.
  - repeat constructor.
  - unfold BRAKE. repeat constructor; simpl; lra.
Defined.

Lemma steerInput_both (k : nat -> bool) :
  k GLFW_KEY_A = true -> k GLFW_KEY_D = true -> steerInput k = 0.
Proof. unfold steerInput; intros -> ->; ring. Qed.

(** X10.  With the left key and the right key both down the net steering
    input is 0: the heading is not changed, and the frame ends in the same
    state as the frame with both steering keys up. *)
Theorem frame_both_steer_keys_cancel :
  forall (s : State) (k : nat -> bool) (dt : R),
    k GLFW_KEY_A = true -> k GLFW_KEY_D = true ->
    steerInput k = 0 /\
    carYaw (frame s (mkInput k dt)) = carYaw s /\
    frame s (mkInput k dt) = frame s (mkInput (releaseSteer k) dt).
Proof.
  intros s k dt HA HD.
  assert (Hs := steerInput_both k HA HD).
  split; [exact Hs | split].
  - rewrite carYaw_frame. unfold steer; simpl. rewrite Hs. ring.
  - unfold frame. f_equal. f_equal. unfold steer; simpl.
    rewrite Hs. reflexivity.
Qed.

Lemma frame_both_steer_keys_cancel_witness :
  carYaw (frame rolling (mkInput pressAD 0.1)) = carYaw rolling.
Proof.
  apply (frame_both_steer_keys_cancel rolling pressAD 0.1); reflexivity.
Defined.

(** ** Sustained reverse input *)

Lemma updateSpeed_reverse (v dt : R) :
  v - BRAKE * dt <= -0.01 ->
  updateSpeed v (-1) dt = Rmax (- MAX_SPEED * 0.5) (v - BRAKE * dt).
Proof.
  unfold updateSpeed, integrateSpeed, clampSpeed, BRAKE, MAX_SPEED.
  intros H. eval_cmp. unfold Rmax.
  destruct (Rle_dec (- (12) * 0.5) (v - 30 * dt)); split_cmp; lra.
Qed.

Lemma run_reverse_steps (ins : list Input) :
  forall s : State,
    - MAX_SPEED * 0.5 <= carSpeed s <= -0.01 ->
    Forall reversing ins ->
    Forall (fun j => 0 <= deltaTime j) ins ->
    noHit s ins ->
    carSpeed (run s ins) = slowDown (carSpeed s) ins /\
    - MAX_SPEED * 0.5 <= carSpeed (run s ins) <= carSpeed s.
Proof.
  induction ins as [| i rest IH]; intros s Hs Hrev Hdt Hfree; simpl.
  - split; [reflexivity | lra].
  - inversion Hrev as [| ? ? Hi Hrest]; subst.
    inversion Hdt as [| ? ? Hd Hdrest]; subst.
    destruct Hfree as [Hfree1 Hfree].
    assert (Hstep : carSpeed (frame s i) =
                    Rmax (- MAX_SPEED * 0.5) (carSpeed s - BRAKE * deltaTime i)).
    { rewrite (carSpeed_frame_free _ _ Hfree1), (accelInput_reversing _ Hi).
      apply updateSpeed_reverse. unfold BRAKE. lra. }
    assert (Hs' : - MAX_SPEED * 0.5 <= carSpeed (frame s i) <= -0.01 /\
                  carSpeed (frame s i) <= carSpeed s).
    { rewrite Hstep. unfold MAX_SPEED, BRAKE, Rmax in *.
      destruct (Rle_dec _ _); lra. }
    destruct Hs' as [Hrange Hdown].
    destruct (IH (frame s i) Hrange Hrest Hdrest Hfree) as [Hrun Hmono].
    rewrite <- Hstep. split; [exact Hrun | lra].
Qed.


Lemma hitsWall_initState_reverseSecond :
  hitsWall initState reverseSecond = false.
Proof.
  unfold hitsWall, tentative.
  assert (Hst : steer initState reverseSecond =
                mkState (mkVec3 0 0 0) 0 (-6) (cameraPos initState)).
  { unfold_steer. eval_cmp. f_equal; lra. }
  rewrite Hst. unfold nextPos; simpl carYaw; rewrite forward_0.
  unfold checkCollision, carSize, wallPos, wallSize; simpl.
  eval_cmp. reflexivity.
Qed.


(** ** Crossing the wall in one frame *)

(** X15.  Only the end point of a move is tested.  A car heading straight
    along +z with no net steering, standing before the wall's overlap zone
    (z <= wallNear = 18.25), whose frame would carry it to or beyond the far
    end of the zone (z + speed * deltaTime >= wallFar = 21.75), has its move
    accepted and ends on the other side of the wall. *)
Theorem frame_can_jump_the_wall :
  forall (s : State) (i : Input),
    carYaw s = 0 ->
    steerInput (keys i) = 0 ->
    vz (carPos s) <= wallNear ->
    wallFar <= vz (carPos s) + carSpeed (steer s i) * deltaTime i ->
    hitsWall s i = false /\
    carSpeed (frame s i) = carSpeed (steer s i) /\
    wallFar <= vz (carPos (frame s i)).
Proof.
  intros s i Hyaw Hsteer Hnear Hfar.
  assert (Hy : carYaw (steer s i) = 0).
  { rewrite carYaw_steer, Hyaw, Hsteer. ring. }
  assert (Hz : vz (tentative s i) =
               vz (carPos s) + carSpeed (steer s i) * deltaTime i).
  { unfold tentative, nextPos. rewrite Hy, forward_0.
    unfold vadd, vscale; simpl. ring. }
  assert (Hfree : hitsWall s i = false).
  { unfold hitsWall. apply checkCollision_false. intros (_ & _ & Hoz).
    unfold overlapsOn in Hoz. rewrite Hz in Hoz.
    unfold wallFar, wallPos, carSize, wallSize in *; simpl in *.
    revert Hoz. split_abs; lra. }
  split; [exact Hfree | split].
  - apply carSpeed_frame_free, Hfree.
  - rewrite (carPos_frame_free _ _ Hfree), Hz. exact Hfar.
Qed.

Lemma steer_approaching_stallW :
  steer approaching stallW = mkState (mkVec3 0 0 18) 0 12 (mkVec3 0 3 10).
Proof.
  unfold_steer. eval_cmp. f_equal; lra.
Qed.

Lemma frame_can_jump_the_wall_witness :
  hitsWall approaching stallW = false /\
  carSpeed (frame approaching stallW) = carSpeed (steer approaching stallW) /\
  wallFar <= vz (carPos (frame approaching stallW)).
Proof.
  apply (frame_can_jump_the_wall approaching stallW).
  - reflexivity.
  - reflexivity.
  - unfold wallNear, wallPos, carSize, wallSize; simpl. lra.
  - rewrite steer_approaching_stallW.
    unfold wallFar, wallPos, carSize, wallSize; simpl. lra.
Defined.

(** * key_callback and the render loop *)

Lemma keyArr_key_callback (w : Window) (key action : Z) (n : nat) :
  keyArr (key_callback w key action) n =
  if (Z.leb 0 key && Z.ltb key 1024 && Nat.eqb n (Z.to_nat key))%bool then
    if Z.eqb action GLFW_PRESS then true
    else if Z.eqb action GLFW_RELEASE then false
    else keyArr w n
  else keyArr w n.
Proof.
  unfold key_callback, setKey; simpl.
  destruct (Z.leb 0 key && Z.ltb key 1024)%bool; simpl; [| reflexivity].
  destruct (Z.eqb action GLFW_PRESS);
    [| destruct (Z.eqb action GLFW_RELEASE)];
    destruct (Nat.eqb n (Z.to_nat key)); reflexivity.
Qed.

(** X16.  [key_callback] writes at most the entry of its key: every other
    entry is left alone, a key outside 0 .. 1023 (GLFW_KEY_UNKNOWN is -1)
    changes no entry at all, and neither does an action that is neither
    press nor release, such as the repeat of a held key. *)
Theorem key_callback_writes_one_entry :
  forall (w : Window) (key action : Z) (n : nat),
    (n <> Z.to_nat key \/ (key < 0)%Z \/ (1024 <= key)%Z \/
     (action <> GLFW_PRESS /\ action <> GLFW_RELEASE)) ->
    keyArr (key_callback w key action) n = keyArr w n.
Proof.
  intros w key action n H. rewrite keyArr_key_callback.
  destruct (Z.leb 0 key) eqn:Hlo; simpl; [| reflexivity].
  destruct (Z.ltb key 1024) eqn:Hhi; simpl; [| reflexivity].
  destruct (Nat.eqb n (Z.to_nat key)) eqn:Hn; [| reflexivity].
  apply Z.leb_le in Hlo. apply Z.ltb_lt in Hhi. apply Nat.eqb_eq in Hn.
  destruct H as [H | [H | [H | [Hp Hr]]]]; try lia.
  apply Z.eqb_neq in Hp. apply Z.eqb_neq in Hr. rewrite Hp, Hr. reflexivity.
Qed.

Lemma key_callback_writes_one_entry_witness :
  keyArr (key_callback (mkWindow (onlyKey GLFW_KEY_W) false) (-1) GLFW_PRESS)
         GLFW_KEY_W = true /\
  keyArr (key_callback (mkWindow (onlyKey GLFW_KEY_W) false) 87 GLFW_REPEAT)
         GLFW_KEY_W = true.
Proof.
  split.
  - apply (key_callback_writes_one_entry
             (mkWindow (onlyKey GLFW_KEY_W) false) (-1) GLFW_PRESS GLFW_KEY_W).
    right; left. lia.
  - apply (key_callback_writes_one_entry
             (mkWindow (onlyKey GLFW_KEY_W) false) 87 GLFW_REPEAT GLFW_KEY_W).
    right; right; right. split; discriminate.
Defined.

Lemma pollEvents_app (w : Window) (evs evs' : list Event) :
  pollEvents w (evs ++ evs') = pollEvents (pollEvents w evs) evs'.
Proof. unfold pollEvents. apply fold_left_app. Qed.

Lemma pollEvents_leaves_key (key : Z) (evs : list Event) :
  forall w : Window,
    (0 <= key)%Z ->
    Forall (leavesKey key) evs ->
    keyArr (pollEvents w evs) (Z.to_nat key) = keyArr w (Z.to_nat key).
Proof.
  induction evs as [| e rest IH]; intros w Hkey Hevs.
  - reflexivity.
  - inversion Hevs as [| ? ? He Hrest]; subst.
    change (pollEvents w (e :: rest)) with (pollEvents (dispatch w e) rest).
    rewrite (IH _ Hkey Hrest). destruct e as [key' action |]; [| reflexivity].
    simpl in He. simpl dispatch. rewrite keyArr_key_callback.
    destruct (Z.leb 0 key') eqn:Hlo; simpl; [| reflexivity].
    destruct (Z.ltb key' 1024) eqn:Hhi; simpl; [| reflexivity].
    destruct (Nat.eqb (Z.to_nat key) (Z.to_nat key')) eqn:Hn; [| reflexivity].
    apply Z.leb_le in Hlo. apply Nat.eqb_eq in Hn.
    destruct He as [He | [Hp Hr]]; [lia |].
    apply Z.eqb_neq in Hp. apply Z.eqb_neq in Hr. rewrite Hp, Hr.
    reflexivity.
Qed.

(** X17.  After a batch of polled events the entry of a key in 0 .. 1023
    is what the last press or release of that key in the batch made it:
    down after a press, up after a release, whatever came before and
    whatever repeats, other keys or close requests come after. *)
Theorem pollEvents_last_press_or_release_wins :
  forall (w : Window) (before after : list Event) (key action : Z),
    (0 <= key < 1024)%Z ->
    action = GLFW_PRESS \/ action = GLFW_RELEASE ->
    Forall (leavesKey key) after ->
    keyArr (pollEvents w (before ++ KeyEvent key action :: after))
           (Z.to_nat key) = Z.eqb action GLFW_PRESS.
Proof.
  intros w before after key action Hkey Hact Hafter.
  rewrite pollEvents_app.
  change (pollEvents ?x (KeyEvent key action :: after))
    with (pollEvents (key_callback x key action) after).
  rewrite pollEvents_leaves_key by (lia || assumption).
  rewrite keyArr_key_callback.
  replace (Z.leb 0 key) with true by (symmetry; apply Z.leb_le; lia).
  replace (Z.ltb key 1024) with true by (symmetry; apply Z.ltb_lt; lia).
  rewrite Nat.eqb_refl. simpl.
  destruct Hact as [-> | ->]; reflexivity.
Qed.

Lemma pollEvents_last_press_or_release_wins_witness :
  keyArr (pollEvents (mkWindow noKeys false)
            ([KeyEvent 87 GLFW_RELEASE] ++ KeyEvent 87 GLFW_PRESS ::
             [KeyEvent 87 GLFW_REPEAT; KeyEvent 83 GLFW_PRESS; CloseRequest]))
         (Z.to_nat 87) = Z.eqb GLFW_PRESS GLFW_PRESS.
Proof.
  apply (pollEvents_last_press_or_release_wins (mkWindow noKeys false)
           [KeyEvent 87 GLFW_RELEASE]
           [KeyEvent 87 GLFW_REPEAT; KeyEvent 83 GLFW_PRESS; CloseRequest]
           87 GLFW_PRESS).
  - lia.
  - left. reflexivity.
  - apply Forall_cons; [right; split; discriminate |].
    apply Forall_cons; [left; discriminate |].
    apply Forall_cons; [exact I | apply Forall_nil].
Defined.

Lemma shouldClose_dispatch (w : Window) (e : Event) :
  shouldClose (dispatch w e) = true <->
  shouldClose w = true \/ e = CloseRequest \/
  e = KeyEvent GLFW_KEY_ESCAPE GLFW_PRESS.
Proof.
  destruct e as [key action |]; simpl.
  - destruct (Z.eqb key GLFW_KEY_ESCAPE) eqn:Hk;
      destruct (Z.eqb action GLFW_PRESS) eqn:Ha; simpl.
    + apply Z.eqb_eq in Hk. apply Z.eqb_eq in Ha. subst. tauto.
    + apply Z.eqb_neq in Ha. split; [tauto |].
      intros [H | [H | H]]; [exact H | discriminate | congruence].
    + apply Z.eqb_neq in Hk. split; [tauto |].
      intros [H | [H | H]]; [exact H | discriminate | congruence].
    + apply Z.eqb_neq in Hk. split; [tauto |].
      intros [H | [H | H]]; [exact H | discriminate | congruence].
  - tauto.
Qed.

(** X18.  The should-close flag after a batch of polled events is set
    exactly when it was set before, or the batch holds a close request or a
    press of the escape key: no event ever clears it, and no other key and
    no release or repeat of escape sets it. *)
Theorem pollEvents_close_flag :
  forall (evs : list Event) (w : Window),
    shouldClose (pollEvents w evs) = true <->
    shouldClose w = true \/ In CloseRequest evs \/
    In (KeyEvent GLFW_KEY_ESCAPE GLFW_PRESS) evs.
Proof.
  induction evs as [| e rest IH]; intros w.
  - simpl. tauto.
  - change (pollEvents w (e :: rest)) with (pollEvents (dispatch w e) rest).
    rewrite IH, shouldClose_dispatch. simpl.
    split; intros H; intuition (subst; auto).
Qed.

(** ** The loop *)

Lemma mainLoop_closed (l : Loop) (ts : list Tick) :
  shouldClose (window l) = true -> mainLoop l ts = l.
Proof. intros H. destruct ts; simpl; [| rewrite H]; reflexivity. Qed.

Lemma dispatch_keeps_closed (w : Window) (e : Event) :
  shouldClose w = true -> shouldClose (dispatch w e) = true.
Proof.
  intros H. destruct e as [key action |]; simpl; [| reflexivity].
  rewrite H. destruct (_ && _)%bool; reflexivity.
Qed.

Lemma pollEvents_keeps_closed (evs : list Event) :
  forall w : Window,
    shouldClose w = true -> shouldClose (pollEvents w evs) = true.
Proof.
  induction evs as [| e rest IH]; intros w H; [exact H |].
  apply (IH (dispatch w e)), dispatch_keeps_closed, H.
Qed.

Lemma pollEvents_closes (evs : list Event) :
  forall w : Window,
    In CloseRequest evs \/ In (KeyEvent GLFW_KEY_ESCAPE GLFW_PRESS) evs ->
    shouldClose (pollEvents w evs) = true.
Proof.
  induction evs as [| e rest IH]; intros w H.
  - destruct H as [[] | []].
  - change (pollEvents w (e :: rest)) with (pollEvents (dispatch w e) rest).
    destruct H as [[He | Hin] | [He | Hin]].
    + subst e. apply pollEvents_keeps_closed. reflexivity.
    + apply IH. left. exact Hin.
    + subst e. apply pollEvents_keeps_closed. reflexivity.
    + apply IH. right. exact Hin.
Qed.

(** X20.  A press of the escape key, or a close request, polled at the end
    of a pass ends the loop: the frame of that pass has been simulated, and
    no later tick changes the simulated state, the clock or the keys. *)
Theorem mainLoop_stops_after_escape :
  forall (ts1 : list Tick) (t : Tick) (ts2 : list Tick) (l : Loop),
    In CloseRequest (polled t) \/
    In (KeyEvent GLFW_KEY_ESCAPE GLFW_PRESS) (polled t) ->
    mainLoop l (ts1 ++ t :: ts2) = mainLoop l (ts1 ++ [t]).
Proof.
  induction ts1 as [| t1 rest IH]; intros t ts2 l Hesc; simpl.
  - destruct (shouldClose (window l)); [reflexivity |].
    apply mainLoop_closed. simpl. apply pollEvents_closes, Hesc.
  - destruct (shouldClose (window l)); [reflexivity |].
    apply IH, Hesc.
Qed.

Lemma mainLoop_stops_after_escape_witness :
  mainLoop initLoop
    ([mkTick 1 []] ++ mkTick 2 [KeyEvent 256 GLFW_PRESS]
       :: [mkTick 3 [KeyEvent 87 GLFW_PRESS]]) =
  mainLoop initLoop ([mkTick 1 []] ++ [mkTick 2 [KeyEvent 256 GLFW_PRESS]]).
Proof.
  apply (mainLoop_stops_after_escape [mkTick 1 []]
           (mkTick 2 [KeyEvent 256 GLFW_PRESS])
           [mkTick 3 [KeyEvent 87 GLFW_PRESS]] initLoop).
  right. left. reflexivity.
Defined.



(** * loadTexture and loadCubemap *)

Lemma uploads_app (cs cs' : list Call) :
  uploads (cs ++ cs') = uploads cs ++ uploads cs'.
Proof.
  induction cs as [| c rest IH]; simpl; [reflexivity |].
  destruct c; simpl; rewrite ?IH; reflexivity.
Qed.

(** X22.  [loadTexture] returns 0 exactly when the image could not be
    read, provided the name OpenGL handed out is not 0, and the generated
    name otherwise; it uploads one image, as GL_TEXTURE_2D, when the image
    was read and none when it was not, although the texture name has been
    taken by then. *)
Theorem loadTexture_result :
  forall (disk : string -> option Image) (fresh : nat) (path : string),
    fresh <> 0%nat ->
    (fst (loadTexture disk fresh path) = 0%nat <-> disk path = None) /\
    (forall img : Image,
       disk path = Some img ->
       fst (loadTexture disk fresh path) = fresh /\
       uploads (snd (loadTexture disk fresh path)) =
         [(GL_TEXTURE_2D, textureFormat (imgChannels img),
           imgWidth img, imgHeight img)]) /\
    (disk path = None ->
     uploads (snd (loadTexture disk fresh path)) = [] /\
     In (GenTextures fresh) (snd (loadTexture disk fresh path))).
Proof.
  intros disk fresh path Hfresh. unfold loadTexture.
  destruct (disk path) as [img |]; simpl.
  - split; [split; [intros H; contradiction | discriminate] |].
    split; [| discriminate].
    intros img' Himg. injection Himg as <-. split; reflexivity.
  - split; [split; reflexivity |].
    split; [discriminate |]. intros _. split; [reflexivity | auto].
Qed.

Lemma loadTexture_result_witness :
  fst (loadTexture emptyDisk 7 "wood.png") = 0%nat <->
  emptyDisk "wood.png"%string = None.
Proof.
  apply (loadTexture_result emptyDisk 7 "wood.png"). discriminate.
Defined.

Lemma In_uploads_loadFaces (disk : string -> option Image)
    (faces : list string) :
  forall (i0 : nat) (u : GLTarget * GLFormat * Z * Z),
    In u (uploads (loadFaces disk i0 faces)) <->
    exists (k : nat) (path : string) (img : Image),
      nth_error faces k = Some path /\ disk path = Some img /\
      u = (GL_TEXTURE_CUBE_MAP_FACE (i0 + k),
           cubemapFormat (imgChannels img), imgWidth img, imgHeight img).
Proof.
  induction faces as [| path rest IH]; intros i0 u; simpl.
  - split; [contradiction |]. intros (k & p & img & Hk & _).
    destruct k; discriminate.
  - rewrite uploads_app, in_app_iff, IH. split.
    + intros [Hin | (k & p & img & Hk & Hp & Hu)].
      * destruct (disk path) as [img |] eqn:Hd; simpl in Hin;
          [| contradiction].
        destruct Hin as [<- | []].
        exists 0%nat, path, img. rewrite Nat.add_0_r. auto.
      * exists (S k), p, img. rewrite Nat.add_succ_r. auto.
    + intros (k & p & img & Hk & Hp & Hu). destruct k as [| k]; simpl in Hk.
      * injection Hk as ->. rewrite Hp. rewrite Nat.add_0_r in Hu.
        left. simpl. left. symmetry. exact Hu.
      * right. exists k, p, img. rewrite Nat.add_succ_r in Hu. auto.
Qed.

Lemma length_uploads_loadFaces (disk : string -> option Image)
    (faces : list string) :
  forall i0 : nat,
    List.length (uploads (loadFaces disk i0 faces)) =
    List.length (filter (readable disk) faces).
Proof.
  induction faces as [| path rest IH]; intros i0; simpl; [reflexivity |].
  rewrite uploads_app, List.length_app, IH.
  unfold readable. destruct (disk path); reflexivity.
Qed.

(** X23.  [loadCubemap] uploads an image for face i (target
    GL_TEXTURE_CUBE_MAP_POSITIVE_X + i) exactly when the i-th path could be
    read, with that image's size; a face that cannot be read is skipped and
    the loop goes on, so there are as many uploads as readable faces; and
    the generated name is returned whether or not any face was read. *)
Theorem loadCubemap_uploads :
  forall (disk : string -> option Image) (fresh : nat) (faces : list string),
    fst (loadCubemap disk fresh faces) = fresh /\
    (forall u : GLTarget * GLFormat * Z * Z,
       In u (uploads (snd (loadCubemap disk fresh faces))) <->
       exists (i : nat) (path : string) (img : Image),
         nth_error faces i = Some path /\ disk path = Some img /\
         u = (GL_TEXTURE_CUBE_MAP_FACE i, cubemapFormat (imgChannels img),
              imgWidth img, imgHeight img)) /\
    List.length (uploads (snd (loadCubemap disk fresh faces))) =
      List.length (filter (readable disk) faces).
Proof.
  intros disk fresh faces.
  assert (Hup : uploads (snd (loadCubemap disk fresh faces)) =
                uploads (loadFaces disk 0 faces)).
  { unfold loadCubemap. cbn [snd]. rewrite !uploads_app. simpl.
    apply app_nil_r. }
  split; [reflexivity | split].
  - intros u. rewrite Hup. apply (In_uploads_loadFaces disk faces 0 u).
  - rewrite Hup. apply length_uploads_loadFaces.
Qed.

(** X24.  stb_image reports 1 to 4 channels.  The format [loadTexture]
    declares matches the channel count except for 2 channels (read as
    GL_RGBA); the one [loadCubemap] declares matches only for 3 and 4
    channels, a 1-channel face being declared GL_RGBA as well; the two
    loaders agree on everything but 1-channel images. *)
Theorem loader_formats :
  forall n : Z,
    (1 <= n <= 4)%Z ->
    (components (textureFormat n) = n <-> n <> 2%Z) /\
    (components (cubemapFormat n) = n <-> (n = 3 \/ n = 4)%Z) /\
    (textureFormat n = cubemapFormat n <-> n <> 1%Z).
Proof.
  intros n Hn.
  assert (Hcases : (n = 1 \/ n = 2 \/ n = 3 \/ n = 4)%Z) by lia.
  destruct Hcases as [-> | [-> | [-> | ->]]];
    unfold textureFormat, cubemapFormat; simpl;
    repeat split; intros; try lia; try discriminate; try reflexivity;
    try congruence.
Qed.

Lemma loader_formats_witness :
  components (cubemapFormat 1) = 1%Z <-> (1 = 3 \/ 1 = 4)%Z.
Proof.
  apply (loader_formats 1). lia.
Defined.
